(** * Circuit execution jobs: [qiskit_iqm/iqm_job.py]

    A shallow embedding of [IQMJob] and a verification of its
    measurement reassembly ([IQMJob._format_iqm_result]) and of the
    small state machine around the cached result ([result], [status],
    [submit], [cancel]).

    Conventions.
    - Python [int] is [Z]; positions, widths and lengths are [nat]; the
      elements of a numpy array of [dtype=int] are 64-bit integers, and
      [np.array] raises on an integer outside that range.
    - A Python exception is a value of [Exn]; code that may raise
      returns an [Outcome].
    - The raw measurement map is a Python [dict]: its iteration order
      is the insertion order, so it is an association list.  The
      intermediate [measurements] dict, keyed by register index and only
      ever looked up, updated and sorted, is a [gmap].
    - The IQM client, [uuid.UUID], [MeasurementKey.from_string] and the
      clock are parameters of the development.  The client and the clock
      act on an explicit state of the world outside the job; a call
      returns or raises, and a method records its calls in a trace.
    - The file has four parts: the model of the code, the reassembly as
      the specification words it, concrete data, and the proofs. *)

From Stdlib Require Import Ascii.
From stdpp Require Import gmap strings list pretty sorting.

Open Scope Z_scope.

(** ** Python values and exceptions *)

(** The value stored under a measurement key, as decoded from JSON:
    nested lists of integers. *)
#[warnings="-register-all"]
Inductive PyVal : Type :=
| PInt (z : Z)
| PList (l : list PyVal).

(** Modelled from the spec: the class [MeasurementKey] of
    [qiskit_iqm.qiskit_to_iqm] is not part of the sources at hand.  The
    spec gives its three attributes: the position of the register among
    the registers of the circuit, the width of the register and the
    position of the bit within the register. *)
Record MeasurementKey : Type := {
  creg_idx : nat;
  creg_len : nat;
  clbit_idx : nat;
}.

Global Instance MeasurementKey_eq_dec : EqDecision MeasurementKey.
Proof. solve_decision. Defined.

Inductive Exn : Type :=
| StopIteration                 (* [next] on an exhausted iterator *)
| TypeError                     (* [len] of an object without length *)
| ArrayError                    (* the [ValueError] of [np.array] on a ragged list *)
| OverflowError                 (* [np.array] on an integer outside [dtype=int] *)
| ShapeError (mk : MeasurementKey) (actual : list nat) (expected : Z * Z)
                                (* the [ValueError] raised on line 56 *)
| IndexError                    (* column index out of bounds *)
| NotImplementedError (msg : string)
| UUIDError                     (* [uuid.UUID] on a malformed string *)
| ClientError (msg : string).   (* whatever the IQM client raises *)

Inductive Outcome (A : Type) : Type :=
| Return (a : A)
| Raise (e : Exn).
Arguments Return {A} a.
Arguments Raise {A} e.

(** Sequencing: an exception of the first computation ends the whole. *)
Global Instance Outcome_bind : MBind Outcome := λ A B f o,
  match o with
  | Return a => f a
  | Raise e => Raise e
  end.
Global Instance Outcome_ret : MRet Outcome := λ A a, Return a.

(** ** numpy arrays *)

(** The dimensions that [np.array] discovers in a nested list, before it
    converts any element: those of a rectangular nesting, [None] when
    the nesting is ragged. *)
Fixpoint discover_shape (v : PyVal) : option (list nat) :=
  match v with
  | PInt _ => Some []
  | PList l =>
      match map discover_shape l with
      | [] => Some [0%nat]
      | Some sh :: rest =>
          if forallb (λ o, bool_decide (o = Some sh)) rest
          then Some (length l :: sh)
          else None
      | None :: _ => None
      end
  end.

(** The values of [dtype=int]: numpy's default integer, which is the
    64-bit signed integer (on Linux and macOS in every version of numpy,
    on every platform from numpy 2 on). *)
Definition int64 (z : Z) : Prop := - 2 ^ 63 ≤ z < 2 ^ 63.

Global Instance int64_dec z : Decision (int64 z).
Proof. unfold int64. apply _. Defined.

(** Every integer of the nested list is one of [dtype=int]. *)
Fixpoint fits_int64 (v : PyVal) : bool :=
  match v with
  | PInt z => bool_decide (int64 z)
  | PList l => forallb fits_int64 l
  end.

(** [np.array(v, dtype=int)], of which the code uses the shape and the
    first column: numpy raises [ValueError] on a ragged list and
    [OverflowError] on an integer that [dtype=int] cannot hold, and
    builds the array of the discovered shape otherwise. *)
Definition np_array (v : PyVal) : Outcome (list nat) :=
  match discover_shape v with
  | None => Raise ArrayError
  | Some sh => if fits_int64 v then Return sh else Raise OverflowError
  end.

(** [res[:, 0]] for an array of two dimensions: the first entry of
    every row. *)
Definition first_of_row (r : PyVal) : Z :=
  match r with
  | PList (PInt z :: _) => z
  | _ => 0
  end.

Definition column0 (v : PyVal) : list Z :=
  match v with
  | PList rows => first_of_row <$> rows
  | PInt _ => []
  end.

(** A two-dimensional integer array: [np.zeros((shots, n), dtype=int)]
    and its in-place updates.  The number of columns is kept beside the
    rows, as numpy keeps the shape of an array without rows. *)
Record ndarray : Type := {
  ncols : nat;
  rows : list (list Z);
}.

Definition np_zeros (nrows n : nat) : ndarray :=
  {| ncols := n; rows := replicate nrows (replicate n 0) |}.

(** [creg[:, b] = res]. *)
Definition set_column (creg : ndarray) (b : nat) (res : list Z) : Outcome ndarray :=
  if decide (b < ncols creg)%nat
  then Return {| ncols := ncols creg;
                 rows := zip_with (λ row x, <[b := x]> row) (rows creg) res |}
  else Raise IndexError.

(** [res[s, ::-1]]. *)
Definition row_reversed (res : ndarray) (s : nat) : list Z :=
  reverse (default [] (rows res !! s)).

(** ** Reassembly: [IQMJob._format_iqm_result] *)

Definition py_len (v : PyVal) : Outcome nat :=
  match v with
  | PList l => Return (length l)
  | PInt _ => Raise TypeError
  end.

(** [len(next(iter(iqm_result.measurements.values())))]. *)
Definition len_of_first (measurements : list (string * PyVal)) : Outcome nat :=
  match measurements with
  | [] => Raise StopIteration
  | (_, v) :: _ => py_len v
  end.

(** Line 47.  The second argument of [dict.get] is an ordinary argument:
    Python evaluates it before the call, whether the key is present or
    not. *)
Definition get_shots (metadata_shots : option Z)
    (measurements : list (string * PyVal)) : Outcome Z :=
  d ← len_of_first measurements;
  Return (default (Z.of_nat d) metadata_shots).

(** [sorted(measurements.items(), reverse=True)]: the keys of a dict are
    distinct, so the order of the pairs is the order of their keys. *)
Definition key_ge (x y : nat * ndarray) : Prop := (y.1 ≤ x.1)%nat.

Global Instance key_ge_dec x y : Decision (key_ge x y).
Proof. unfold key_ge. apply _. Defined.

Definition sorted_reverse (measurements : gmap nat ndarray) : list (nat * ndarray) :=
  merge_sort key_ge (map_to_list measurements).

Definition str_bits (bits : list Z) : string :=
  String.concat "" (pretty <$> bits).

Definition shot_string (regs : list (nat * ndarray)) (s : nat) : string :=
  String.concat " " ((λ kv, str_bits (row_reversed kv.2 s)) <$> regs).

Section Reassembly.
(** [MeasurementKey.from_string]. *)
Variable from_string : string → MeasurementKey.

(** The body of the loop of lines 51-61. *)
Definition process_entry (shots : Z) (measurements : gmap nat ndarray)
    (kv : string * PyVal) : Outcome (gmap nat ndarray) :=
  let mk := from_string kv.1 in
  shape ← np_array kv.2;
  if decide (Z.of_nat <$> shape = [shots; 1]) then
    let res := column0 kv.2 in
    let creg := default (np_zeros (Z.to_nat shots) (creg_len mk))
                        (measurements !! creg_idx mk) in
    creg' ← set_column creg (clbit_idx mk) res;
    Return (<[creg_idx mk := creg']> measurements)
  else Raise (ShapeError mk shape (shots, 1)).

Fixpoint process_entries (shots : Z) (items : list (string * PyVal))
    (measurements : gmap nat ndarray) : Outcome (gmap nat ndarray) :=
  match items with
  | [] => Return measurements
  | kv :: items' =>
      measurements' ← process_entry shots measurements kv;
      process_entries shots items' measurements'
  end.

Definition _format_iqm_result (metadata_shots : option Z)
    (raw : list (string * PyVal)) : Outcome (list string) :=
  shots ← get_shots metadata_shots raw;
  measurements ← process_entries shots raw ∅;
  Return ((λ s, shot_string (sorted_reverse measurements) s)
            <$> seq 0 (Z.to_nat shots)).
End Reassembly.

(** ** The job: [IQMJob] *)

(** [iqm_client.RunStatus] and [iqm_client.RunResult]. *)
Inductive RunStatus : Type := PENDING | READY | FAILED.

Global Instance RunStatus_eq_dec : EqDecision RunStatus.
Proof. solve_decision. Defined.

Module RunResult.
Record t : Type := { status : RunStatus; measurements : list (string * PyVal) }.
End RunResult.

(** [qiskit.providers.JobStatus]. *)
Inductive JobStatus : Type :=
| INITIALIZING | QUEUED | VALIDATING | RUNNING | CANCELLED | DONE | ERROR.

(** [datetime.date]. *)
Record date : Type := { year : nat; month : nat; day : nat }.

(** [Counter(memory)]: one pass over the list, adding one to the count
    of each string met. *)
Definition Counter (memory : list string) : gmap string nat :=
  foldl (λ counts x, <[x := S (default 0%nat (counts !! x))]> counts) ∅ memory.

(** The dictionary handed to [Result.from_dict], as a record. *)
Module Result.
Record experiment : Type := {
  shots : nat;
  exp_success : bool;
  memory : list string;
  counts : gmap string nat;
}.
Record t : Type := {
  backend_name : option string;
  backend_version : option string;
  qobj_id : option string;
  job_id : string;
  success : bool;
  results : list experiment;
  date_ : date;
}.
End Result.

Module IQMJob.
(** The attributes of a job: its id, the shot count of its metadata
    when one is recorded, and the cached result, [None] at first. *)
Record t : Type := {
  _job_id : string;
  metadata_shots : option Z;
  _result : option (list string);
}.

(** [IQMJob.__init__]. *)
Definition __init__ (job_id : string) (shots : option Z) : t :=
  {| _job_id := job_id; metadata_shots := shots; _result := None |}.

(** Truth value of [self._result]: [None] and the empty list are false. *)
Definition truthy (r : option (list string)) : bool :=
  match r with
  | Some (_ :: _) => true
  | _ => false
  end.

Section Job.
(** The world outside the job: the IQM server behind the client, and
    the clock.  [UUID] is the type of parsed job ids. *)
Context {World UUID : Type}.
Variable from_string : string → MeasurementKey.
(** [uuid.UUID]: [None] when the string is not a UUID. *)
Variable uuid_UUID : string → option UUID.
(** [IQMClient.wait_for_results] and [IQMClient.get_run]. *)
Variable wait_for_results : UUID → World → Outcome RunResult.t * World.
Variable get_run : UUID → World → Outcome RunResult.t * World.
(** [date.today]. *)
Variable today : World → date * World.

(** What a method does, in order: its calls of the client and of the
    clock, and its reassembly passes. *)
Inductive Event : Type :=
| Call_wait_for_results (u : UUID)
| Call_get_run (u : UUID)
| Call_format_iqm_result
| Call_today.

Record State : Type := {
  job : t;
  world : World;
  trace : list Event;
}.

(** A method body: it may raise, and it changes the state. *)
Definition Py (A : Type) : Type := State → Outcome A * State.

Global Instance Py_ret : MRet Py := λ A a st, (Return a, st).
Global Instance Py_bind : MBind Py := λ A B f m st,
  match m st with
  | (Return a, st') => f a st'
  | (Raise e, st') => (Raise e, st')
  end.

Definition raise {A} (e : Exn) : Py A := λ st, (Raise e, st).

Definition log (e : Event) : Py () := λ st,
  (Return (), {| job := job st; world := world st; trace := trace st ++ [e] |}).

Definition get_job : Py t := λ st, (Return (job st), st).

(** [self._result = r]. *)
Definition set_result (r : list string) : Py () := λ st,
  (Return (),
   {| job := {| _job_id := _job_id (job st);
                metadata_shots := metadata_shots (job st);
                _result := Some r |};
      world := world st; trace := trace st |}).

(** [uuid.UUID(self._job_id)]. *)
Definition parse_job_id : Py UUID :=
  self ← get_job;
  match uuid_UUID (_job_id self) with
  | Some u => mret u
  | None => raise UUIDError
  end.

(** A computation that neither reads nor changes the state. *)
Definition pure {A} (o : Outcome A) : Py A := λ st, (o, st).

(** A step of the world outside. *)
Definition outside {A} (f : World → Outcome A * World) : Py A := λ st,
  let '(o, w) := f (world st) in
  (o, {| job := job st; world := w; trace := trace st |}).

Definition call_client (f : UUID → World → Outcome RunResult.t * World)
    (e : Event) (u : UUID) : Py RunResult.t :=
  log e;; outside (f u).

Definition call_today : Py date :=
  log Call_today;;
  outside (λ w, let '(d, w') := today w in (Return d, w')).

(** [self._format_iqm_result(iqm_result)]. *)
Definition format_iqm_result (iqm_result : RunResult.t) : Py (list string) :=
  log Call_format_iqm_result;;
  self ← get_job;
  pure (_format_iqm_result from_string (metadata_shots self)
          (RunResult.measurements iqm_result)).

Definition submit : Py () :=
  raise (NotImplementedError "Instead, use IQMBackend.run to submit jobs.").

Definition cancel : Py () :=
  raise (NotImplementedError "Canceling jobs is currently not supported.").

Definition result : Py Result.t :=
  self ← get_job;
  (if truthy (_result self) then mret ()
   else
     u ← parse_job_id;
     iqm_result ← call_client wait_for_results (Call_wait_for_results u) u;
     r ← format_iqm_result iqm_result;
     set_result r);;
  self ← get_job;
  match _result self with
  | None => raise TypeError
  | Some r =>
      d ← call_today;
      mret {| Result.backend_name := None;
              Result.backend_version := None;
              Result.qobj_id := None;
              Result.job_id := _job_id self;
              Result.success := true;
              Result.results :=
                [ {| Result.shots := length r;
                     Result.exp_success := true;
                     Result.memory := r;
                     Result.counts := Counter r |} ];
              Result.date_ := d |}
  end.

Definition status : Py JobStatus :=
  self ← get_job;
  if truthy (_result self) then mret DONE
  else
    u ← parse_job_id;
    iqm_result ← call_client get_run (Call_get_run u) u;
    if decide (RunResult.status iqm_result = READY) then
      r ← format_iqm_result iqm_result;
      set_result r;;
      mret DONE
    else mret RUNNING.
End Job.
End IQMJob.

(** ** Sequences of calls *)

Section Calls.
Context {World UUID : Type}.
Variable from_string : string → MeasurementKey.
Variable uuid_UUID : string → option UUID.
Variable wait_for_results : UUID → World → Outcome RunResult.t * World.
Variable get_run : UUID → World → Outcome RunResult.t * World.
Variable today : World → date * World.

Import IQMJob.
Local Abbreviation State := (@IQMJob.State World UUID).
Local Abbreviation status := (IQMJob.status from_string uuid_UUID get_run).
Local Abbreviation result := (IQMJob.result from_string uuid_UUID wait_for_results today).

(** What can happen to a job: its methods are called, and between the
    calls the world outside moves on. *)
Inductive Op : Type :=
| Op_status | Op_result | Op_submit | Op_cancel
| Op_outside (f : World → World).

Definition step (st : State) (op : Op) : State :=
  match op with
  | Op_status => (status st).2
  | Op_result => (result st).2
  | Op_submit => (submit st).2
  | Op_cancel => (cancel st).2
  | Op_outside f => {| job := job st; world := f (world st); trace := trace st |}
  end.

Definition run (ops : list Op) (st : State) : State := foldl step st ops.

Fixpoint count_events (p : Event → bool) (tr : list (@Event UUID)) : nat :=
  match tr with
  | [] => 0
  | e :: tr' => ((if p e then 1 else 0) + count_events p tr')%nat
  end.

Definition is_get_run (e : @Event UUID) : bool :=
  match e with Call_get_run _ => true | _ => false end.
Definition is_wait_for_results (e : @Event UUID) : bool :=
  match e with Call_wait_for_results _ => true | _ => false end.
End Calls.

(** ** The reassembly as the specification words it

    Per register, a grid of [shots] rows and as many columns as the
    register is wide, zero where nothing is written; a shot is rendered
    register by register, highest register index first, and inside a
    register highest bit index first. *)

(** The grid with [n] rows and [w] columns whose cell in row [s] and
    column [b] is [f b s]. *)
Definition grid_of (n w : nat) (f : nat → nat → Z) : ndarray :=
  {| ncols := w; rows := (λ s, (λ b, f b s) <$> seq 0 w) <$> seq 0 n |}.

Section Specification.
Variable from_string : string → MeasurementKey.

(** The raw-map entry [kv] is the measurement of bit [b] of register [c]. *)
Definition writes (c b : nat) (kv : string * PyVal) : Prop :=
  creg_idx (from_string kv.1) = c ∧ clbit_idx (from_string kv.1) = b.

Global Instance writes_dec c b kv : Decision (writes c b kv).
Proof. unfold writes. apply _. Defined.

(** The column written to bit [b] of register [c]: the one of the last
    entry of the raw map that measures this bit, if there is one. *)
Fixpoint written_column (raw : list (string * PyVal)) (c b : nat) : option (list Z) :=
  match raw with
  | [] => None
  | kv :: raw' =>
      match written_column raw' c b with
      | Some col => Some col
      | None => if decide (writes c b kv) then Some (column0 kv.2) else None
      end
  end.

Definition spec_bit (raw : list (string * PyVal)) (c b s : nat) : Z :=
  default 0 (col ← written_column raw c b; col !! s).

(** The width of register [c]: the one its first key announces;
    [None] when no entry belongs to the register. *)
Fixpoint register_width (raw : list (string * PyVal)) (c : nat) : option nat :=
  match raw with
  | [] => None
  | kv :: raw' =>
      if decide (creg_idx (from_string kv.1) = c)
      then Some (creg_len (from_string kv.1))
      else register_width raw' c
  end.

(** The string of register [c] in shot [s]: bit [width - 1] first. *)
Definition spec_register_string (raw : list (string * PyVal)) (c s : nat) : string :=
  str_bits ((λ b, spec_bit raw c b s)
              <$> reverse (seq 0 (default 0%nat (register_width raw c)))).

Definition spec_shot_string (raw : list (string * PyVal)) (regs : list nat) (s : nat) : string :=
  String.concat " " ((λ c, spec_register_string raw c s) <$> regs).

(** The dict [measurements] after the entries [pre] holds, for every
    register with an entry in [pre], the grid of the specification. *)
Definition grids_of (n : nat) (pre : list (string * PyVal))
    (measurements : gmap nat ndarray) : Prop :=
  ∀ c, measurements !! c
       = (λ w, grid_of n w (spec_bit pre c)) <$> register_width pre c.

(** The bit of the key lies inside its register, as wide as the first
    key of the register in [raw] says. *)
Definition in_range (raw : list (string * PyVal)) (kv : string * PyVal) : Prop :=
  ∃ w, register_width raw (creg_idx (from_string kv.1)) = Some w ∧
       (clbit_idx (from_string kv.1) < w)%nat.
End Specification.

(** The data model of the specification: a measured value is a bit. *)
Definition is_bit (z : Z) : Prop := z = 0 ∨ z = 1.

Definition bits_only (raw : list (string * PyVal)) : Prop :=
  Forall (λ kv, Forall is_bit (column0 kv.2)) raw.

Definition bit_char (z : Z) : ascii := if decide (z = 0) then "0"%char else "1"%char.

(** The number of shots in which the string [x] occurs. *)
Fixpoint occurrences (x : string) (memory : list string) : nat :=
  match memory with
  | [] => 0
  | y :: memory' => ((if decide (y = x) then 1 else 0) + occurrences x memory')%nat
  end.

(** The result object built from the cached list [r] and the date [d]. *)
Definition result_of (self : IQMJob.t) (r : list string) (d : date) : Result.t :=
  {| Result.backend_name := None;
     Result.backend_version := None;
     Result.qobj_id := None;
     Result.job_id := IQMJob._job_id self;
     Result.success := true;
     Result.results :=
       [ {| Result.shots := length r;
            Result.exp_success := true;
            Result.memory := r;
            Result.counts := Counter r |} ];
     Result.date_ := d |}.

Definition with_result (self : IQMJob.t) (r : list string) : IQMJob.t :=
  {| IQMJob._job_id := IQMJob._job_id self;
     IQMJob.metadata_shots := IQMJob.metadata_shots self;
     IQMJob._result := Some r |}.

(** [r] with its date replaced. *)
Definition with_date (r : Result.t) (d : date) : Result.t :=
  {| Result.backend_name := Result.backend_name r;
     Result.backend_version := Result.backend_version r;
     Result.qobj_id := Result.qobj_id r;
     Result.job_id := Result.job_id r;
     Result.success := Result.success r;
     Result.results := Result.results r;
     Result.date_ := d |}.

(** The bit that an entry measures: register and position. *)
Definition target (from_string : string → MeasurementKey) (kv : string * PyVal) : nat * nat :=
  (creg_idx (from_string kv.1), clbit_idx (from_string kv.1)).

(** No two entries of the raw map measure the same bit. *)
Definition distinct_targets (from_string : string → MeasurementKey)
    (raw : list (string * PyVal)) : Prop :=
  NoDup (target from_string <$> raw).

(** The keys of one register all announce the same width. *)
Definition consistent_widths (from_string : string → MeasurementKey)
    (raw : list (string * PyVal)) : Prop :=
  Forall (λ kv, Forall (λ kv',
            creg_idx (from_string kv.1) = creg_idx (from_string kv'.1) →
            creg_len (from_string kv.1) = creg_len (from_string kv'.1)) raw) raw.

(** The sum of the counts of a histogram. *)
Definition total_counts (counts : gmap string nat) : nat :=
  map_fold (λ _ n acc, (n + acc)%nat) 0%nat counts.


(** ** Concrete data for the examples *)

(** A decoder given by a table, for concrete runs. *)
Fixpoint key_table (tbl : list (string * MeasurementKey)) (k : string) : MeasurementKey :=
  match tbl with
  | [] => {| creg_idx := 0; creg_len := 0; clbit_idx := 0 |}
  | (k', mk) :: tbl' => if decide (k' = k) then mk else key_table tbl' k
  end.

Definition column (bits : list Z) : PyVal := PList ((λ z, PList [PInt z]) <$> bits).

Definition mk (c n b : nat) : MeasurementKey :=
  {| creg_idx := c; creg_len := n; clbit_idx := b |}.

Definition demo_keys : list (string * MeasurementKey) :=
  [("c_2_0_0", mk 0 2 0); ("c_2_0_1", mk 0 2 1);
   ("d_3_1_0", mk 1 3 0); ("d_3_1_1", mk 1 3 1); ("d_3_1_2", mk 1 3 2)]%string.

Definition demo_raw : list (string * PyVal) :=
  [("c_2_0_0", column [0; 1]); ("d_3_1_2", column [1; 0]);
   ("d_3_1_0", column [1; 1]); ("c_2_0_1", column [1; 1]);
   ("d_3_1_1", column [0; 1])]%string.

(** A raw map and its keys for a register of width 5 of which only
    bits 0 and 2 are measured. *)
Definition sparse_keys : list (string * MeasurementKey) :=
  [("r_5_0_0", mk 0 5 0); ("r_5_0_2", mk 0 5 2)]%string.

Definition sparse_raw : list (string * PyVal) :=
  [("r_5_0_0", column [1; 0]); ("r_5_0_2", column [1; 1])]%string.

(** A column of two rows followed by a column of one row. *)
Definition short_column_raw : list (string * PyVal) :=
  [("c_2_0_0", column [0; 1]); ("c_2_0_1", column [1])]%string.





(** ** A concrete client

    The server answers every request with the finished run of the
    two-register circuit above; the world is the number of days gone by
    since the job was created, which the clock reports. *)
Definition demo_uuid (s : string) : option string := Some s.

Definition demo_client (u : string) (w : nat) : Outcome RunResult.t * nat :=
  (Return {| RunResult.status := READY; RunResult.measurements := demo_raw |}, w).

Definition demo_today (w : nat) : date * nat :=
  ({| year := 2022; month := 11; day := 1 + w |}, w).

Definition demo_state (r : option (list string)) (w : nat) : @IQMJob.State nat string :=
  {| IQMJob.job := {| IQMJob._job_id := "c2d31ae9-e749-4835-8450-0df10be5d1c1";
                      IQMJob.metadata_shots := Some 2;
                      IQMJob._result := r |};
     IQMJob.world := w;
     IQMJob.trace := [] |}.

Definition demo_result : IQMJob.Py Result.t :=
  IQMJob.result (key_table demo_keys) demo_uuid demo_client demo_today.

Definition demo_status : IQMJob.Py JobStatus :=
  IQMJob.status (key_table demo_keys) demo_uuid demo_client.

(** The next day. *)
Definition tomorrow (st : @IQMJob.State nat string) : @IQMJob.State nat string :=
  {| IQMJob.job := IQMJob.job st; IQMJob.world := S (IQMJob.world st);
     IQMJob.trace := IQMJob.trace st |}.

Definition demo_job (r : option (list string)) : IQMJob.t :=
  IQMJob.job (demo_state r 0).

Definition demo_memory : list string := ["101 10"; "011 11"].

(** The state after a first successful call of [result], of [status]. *)
Definition demo_after_result : @IQMJob.State nat string :=
  {| IQMJob.job := demo_job (Some demo_memory);
     IQMJob.world := 0%nat;
     IQMJob.trace := [IQMJob.Call_wait_for_results (IQMJob._job_id (demo_job None));
                      IQMJob.Call_format_iqm_result; IQMJob.Call_today] |}.

Definition demo_after_status : @IQMJob.State nat string :=
  {| IQMJob.job := demo_job (Some demo_memory);
     IQMJob.world := 0%nat;
     IQMJob.trace := [IQMJob.Call_get_run (IQMJob._job_id (demo_job None));
                      IQMJob.Call_format_iqm_result] |}.

Definition demo_date (d : nat) : date := {| year := 2022; month := 11; day := d |}.

(** Two keys for the same bit: the second column overwrites the first. *)
Definition alias_keys : list (string * MeasurementKey) :=
  [("c_2_0_0", mk 0 2 0); ("x_2_0_0", mk 0 2 0)]%string.

Definition alias_raw : list (string * PyVal) :=
  [("c_2_0_0", column [0; 1]); ("x_2_0_0", column [1; 1])]%string.

Definition alias_grids : gmap nat ndarray :=
  {[ 0%nat := {| ncols := 2; rows := [[1; 0]; [1; 0]] |} ]}.








(** A server whose run has failed. *)
Definition failed_client (u : string) (w : nat) : Outcome RunResult.t * nat :=
  (Return {| RunResult.status := FAILED; RunResult.measurements := demo_raw |}, w).

(** A server whose finished run has a column that is too short, and a
    server whose run is still pending. *)
Definition short_client (u : string) (w : nat) : Outcome RunResult.t * nat :=
  (Return {| RunResult.status := READY; RunResult.measurements := short_column_raw |}, w).

Definition pending_client (u : string) (w : nat) : Outcome RunResult.t * nat :=
  (Return {| RunResult.status := PENDING; RunResult.measurements := [] |}, w).

Definition demo_polled : @IQMJob.State nat string :=
  {| IQMJob.job := demo_job None;
     IQMJob.world := 0%nat;
     IQMJob.trace := [IQMJob.Call_get_run (IQMJob._job_id (demo_job None))] |}.

Definition demo_failed : @IQMJob.State nat string :=
  {| IQMJob.job := demo_job None;
     IQMJob.world := 0%nat;
     IQMJob.trace := [IQMJob.Call_get_run (IQMJob._job_id (demo_job None));
                      IQMJob.Call_format_iqm_result] |}.

(** ** Facts about arrays *)

Lemma np_zeros_grid_of n w : np_zeros n w = grid_of n w (λ _ _, 0).
Proof.
  unfold np_zeros, grid_of. f_equal.
  rewrite (const_fmap _ (seq 0 n) (replicate w 0)), length_seq; [done|].
  intros s. by rewrite (const_fmap _ (seq 0 w) 0), length_seq.
Qed.

Lemma grid_of_ext n w f g :
  (∀ b s, (b < w)%nat → (s < n)%nat → f b s = g b s) → grid_of n w f = grid_of n w g.
Proof.
  intros Hfg. unfold grid_of. f_equal.
  apply list_eq. intros s. rewrite !list_lookup_fmap.
  destruct (seq 0 n !! s) as [s'|] eqn:Hs; [|done]. simpl. f_equal.
  apply lookup_seq in Hs as [-> Hs].
  apply list_eq. intros b. rewrite !list_lookup_fmap.
  destruct (seq 0 w !! b) as [b'|] eqn:Hb; [|done]. simpl. f_equal.
  apply lookup_seq in Hb as [-> Hb]. by apply Hfg.
Qed.

Lemma set_column_grid_of n w f b col :
  (b < w)%nat → length col = n →
  set_column (grid_of n w f) b col
  = Return (grid_of n w (λ b' s, if decide (b' = b) then default 0 (col !! s) else f b' s)).
Proof.
  intros Hb Hlen. unfold set_column. simpl.
  destruct (decide (b < w)%nat); [|lia]. f_equal. unfold grid_of. f_equal.
  apply list_eq. intros s. rewrite lookup_zip_with, !list_lookup_fmap.
  destruct (seq 0 n !! s) as [s'|] eqn:Hs; [|done]. simpl.
  apply lookup_seq in Hs as [-> Hs]. simpl.
  destruct (col !! s) as [x|] eqn:Hx; simpl.
  2:{ apply lookup_ge_None in Hx. lia. }
  f_equal. apply list_eq. intros b'.
  destruct (decide (b' = b)) as [->|Hne].
  - rewrite list_lookup_insert_eq by (rewrite length_fmap, length_seq; lia).
    rewrite list_lookup_fmap, lookup_seq_lt by done. simpl.
    by rewrite decide_True.
  - rewrite list_lookup_insert_ne by done. rewrite !list_lookup_fmap.
    destruct (seq 0 w !! b') as [b''|] eqn:Hb'; [|done]. simpl.
    apply lookup_seq in Hb' as [-> Hb']. simpl. by rewrite decide_False.
Qed.

Lemma row_reversed_grid_of n w f s :
  (s < n)%nat →
  row_reversed (grid_of n w f) s = (λ b, f b s) <$> reverse (seq 0 w).
Proof.
  intros Hs. unfold row_reversed, grid_of. simpl.
  rewrite list_lookup_fmap, lookup_seq_lt by done. simpl.
  by rewrite fmap_reverse.
Qed.

(** An array of shape [(n, 1)] is a list of [n] rows. *)
Lemma discover_shape_column0_length v n sh :
  discover_shape v = Some (n :: sh) → length (column0 v) = n.
Proof.
  destruct v as [z|l]; simpl; [done|].
  destruct l as [|x l]; simpl; [by intros [= <-]|].
  destruct (discover_shape x); [|done].
  case_match; [|done]. intros [= <-]. by rewrite length_fmap.
Qed.

Lemma discover_shape_rows_nonempty v n sh :
  discover_shape v = Some (n :: 1%nat :: sh) → (0 < n)%nat.
Proof.
  destruct v as [z|l]; simpl; [done|].
  destruct l as [|x l]; simpl; [done|].
  destruct (discover_shape x); [|done].
  case_match; [|done]. intros [= <-]. lia.
Qed.

(** ** The loop builds the grids of the specification *)

Global Instance key_ge_trans : Transitive key_ge.
Proof. unfold key_ge. intros x y z ??. lia. Qed.
Global Instance key_ge_total : Total key_ge.
Proof. unfold key_ge. intros x y. lia. Qed.

Lemma sorted_reverse_strict (l : list (nat * ndarray)) :
  StronglySorted key_ge l → NoDup l.*1 → StronglySorted gt l.*1.
Proof.
  induction 1 as [|x l Hl IH Hx]; simpl; [constructor|].
  intros [Hnin Hnd]%NoDup_cons. constructor; [by apply IH|].
  apply Forall_fmap, Forall_forall. intros y Hy. simpl.
  pose proof (proj1 (Forall_forall _ _) Hx y Hy) as Hge. unfold key_ge in Hge.
  assert (y.1 ≠ x.1); [|lia].
  intros Heq. apply Hnin. rewrite <- Heq. apply list_elem_of_fmap. eauto.
Qed.

Section Loop.
Variable from_string : string → MeasurementKey.
Local Abbreviation grids_of := (grids_of from_string).

Lemma written_column_snoc raw kv c b :
  written_column from_string (raw ++ [kv]) c b
  = if decide (writes from_string c b kv) then Some (column0 kv.2)
    else written_column from_string raw c b.
Proof.
  induction raw as [|kv' raw IH]; simpl.
  - by destruct (decide _).
  - rewrite IH. destruct (decide (writes from_string c b kv)); [done|].
    by destruct (written_column from_string raw c b).
Qed.

Lemma register_width_snoc raw kv c :
  register_width from_string (raw ++ [kv]) c
  = match register_width from_string raw c with
    | Some w => Some w
    | None => if decide (creg_idx (from_string kv.1) = c)
              then Some (creg_len (from_string kv.1)) else None
    end.
Proof.
  induction raw as [|kv' raw IH]; simpl; [done|].
  by destruct (decide (creg_idx (from_string kv'.1) = c)).
Qed.

Lemma written_column_no_register raw c b :
  register_width from_string raw c = None → written_column from_string raw c b = None.
Proof.
  induction raw as [|kv raw IH]; simpl; [done|].
  destruct (decide (creg_idx (from_string kv.1) = c)) as [|Hne]; [done|].
  intros Hw. rewrite (IH Hw). rewrite decide_False; [done|].
  unfold writes. tauto.
Qed.

Lemma grids_of_empty n : grids_of n [] ∅.
Proof. intros c. by rewrite lookup_empty. Qed.

Lemma process_entry_Return shots measurements kv measurements' :
  process_entry from_string shots measurements kv = Return measurements' →
  discover_shape kv.2 = Some [Z.to_nat shots; 1%nat] ∧ (0 < shots) ∧
  ∃ creg',
    set_column (default (np_zeros (Z.to_nat shots) (creg_len (from_string kv.1)))
                        (measurements !! creg_idx (from_string kv.1)))
               (clbit_idx (from_string kv.1)) (column0 kv.2) = Return creg' ∧
    measurements' = <[creg_idx (from_string kv.1) := creg']> measurements.
Proof.
  unfold process_entry, np_array.
  destruct (discover_shape kv.2) as [sh|] eqn:Hsh; simpl; [|done].
  destruct (fits_int64 kv.2); simpl; [|done].
  destruct (decide _) as [Heq|]; [|done].
  destruct sh as [|a [|a' [|??]]]; try done.
  injection Heq as Ha Ha'. assert (a' = 1%nat) as -> by lia.
  pose proof (discover_shape_rows_nonempty _ _ _ Hsh).
  assert (a = Z.to_nat shots) as -> by lia.
  destruct (set_column _ _ _) as [creg'|] eqn:Hset; simpl; [|done].
  intros [= <-]. split_and!; [done|lia|]. by exists creg'.
Qed.

(** An entry that the loop accepts holds integers of [dtype=int] only. *)
Lemma process_entry_Return_fits shots measurements kv measurements' :
  process_entry from_string shots measurements kv = Return measurements' →
  fits_int64 kv.2 = true.
Proof.
  unfold process_entry, np_array.
  destruct (discover_shape kv.2) as [sh|]; simpl; [|done].
  by destruct (fits_int64 kv.2).
Qed.

(** What [setdefault] hands out: the grid of the register so far, or a
    fresh grid of zeros as wide as the key says. *)
Lemma setdefault_grid_of n pre measurements kv :
  grids_of n pre measurements →
  ∃ w f,
    default (np_zeros n (creg_len (from_string kv.1)))
            (measurements !! creg_idx (from_string kv.1)) = grid_of n w f ∧
    register_width from_string (pre ++ [kv]) (creg_idx (from_string kv.1)) = Some w ∧
    ∀ b s, spec_bit from_string pre (creg_idx (from_string kv.1)) b s = f b s.
Proof.
  intros Hinv. set (key := from_string kv.1).
  rewrite (Hinv (creg_idx key)), register_width_snoc.
  destruct (register_width from_string pre (creg_idx key)) as [w|] eqn:Hpre; simpl.
  - by exists w, (spec_bit from_string pre (creg_idx key)).
  - exists (creg_len key), (λ _ _, 0). rewrite np_zeros_grid_of.
    fold key. rewrite decide_True by done. split_and!; [done..|].
    intros b s. unfold spec_bit.
    by rewrite written_column_no_register.
Qed.

Lemma process_entry_grids_of shots pre measurements kv measurements' :
  grids_of (Z.to_nat shots) pre measurements →
  process_entry from_string shots measurements kv = Return measurements' →
  grids_of (Z.to_nat shots) (pre ++ [kv]) measurements'.
Proof.
  intros Hinv (Hsh & _ & creg' & Hset & ->)%process_entry_Return.
  set (n := Z.to_nat shots) in *.
  pose proof (discover_shape_column0_length _ _ _ Hsh) as Hlen.
  destruct (setdefault_grid_of n pre measurements kv Hinv) as (w & f & Hcreg & Hw & Hf).
  set (key := from_string kv.1) in *.
  rewrite Hcreg in Hset. unfold set_column in Hset. simpl in Hset.
  destruct (decide (clbit_idx key < w)%nat) as [Hb|]; [|done].
  pose proof (set_column_grid_of n w f _ _ Hb Hlen) as Hset'.
  unfold set_column in Hset'. simpl in Hset'.
  rewrite decide_True in Hset' by done. rewrite Hset' in Hset.
  injection Hset as Hset. subst creg'.
  intros c. destruct (decide (creg_idx key = c)) as [<-|Hne].
  - rewrite lookup_insert_eq, Hw. simpl. f_equal. symmetry.
    apply grid_of_ext. intros b s _ _.
    unfold spec_bit at 1. rewrite written_column_snoc. fold key.
    destruct (decide (b = clbit_idx key)) as [->|Hbne].
    + by rewrite decide_True.
    + rewrite decide_False by (unfold writes; fold key; intros [_ ?]; congruence).
      apply Hf.
  - rewrite lookup_insert_ne, Hinv, register_width_snoc by done.
    fold key. rewrite decide_False by done.
    destruct (register_width from_string pre c) as [w'|]; simpl; [|done].
    f_equal. apply grid_of_ext. intros b s _ _.
    unfold spec_bit. rewrite written_column_snoc.
    rewrite decide_False; [done|]. unfold writes. fold key. tauto.
Qed.

Lemma process_entries_grids_of shots items pre measurements measurements' :
  grids_of (Z.to_nat shots) pre measurements →
  process_entries from_string shots items measurements = Return measurements' →
  grids_of (Z.to_nat shots) (pre ++ items) measurements'.
Proof.
  revert pre measurements.
  induction items as [|kv items IH]; intros pre measurements Hinv; simpl.
  - intros [= <-]. by rewrite app_nil_r.
  - destruct (process_entry _ _ _ _) as [ms1|] eqn:Hstep; simpl; [|done].
    intros Hrest. rewrite cons_middle, app_assoc.
    eapply IH; [|done]. by eapply process_entry_grids_of.
Qed.

(** Every accepted entry is an array of [shots] rows of one element,
    and an accepted raw map has at least one shot. *)
Lemma process_entries_shapes shots items measurements measurements' :
  process_entries from_string shots items measurements = Return measurements' →
  Forall (λ kv, discover_shape kv.2 = Some [Z.to_nat shots; 1%nat]) items ∧
  (items ≠ [] → 0 < shots).
Proof.
  revert measurements.
  induction items as [|kv items IH]; intros measurements; simpl; [done|].
  destruct (process_entry _ _ _ _) as [ms1|] eqn:Hstep; simpl; [|done].
  apply process_entry_Return in Hstep as (Hsh & Hpos & _).
  intros [Hall _]%IH. split; [by constructor|done].
Qed.

Lemma process_entries_fits shots items measurements measurements' :
  process_entries from_string shots items measurements = Return measurements' →
  Forall (λ kv, fits_int64 kv.2 = true) items.
Proof.
  revert measurements.
  induction items as [|kv items IH]; intros measurements; simpl; [done|].
  destruct (process_entry _ _ _ _) as [ms1|] eqn:Hstep; simpl; [|done].
  apply process_entry_Return_fits in Hstep.
  intros Hall%IH. by constructor.
Qed.
End Loop.

(** ** The reassembly refines its specification *)

Lemma get_shots_Return metadata_shots raw shots :
  get_shots metadata_shots raw = Return shots →
  ∃ kv raw' d, raw = kv :: raw' ∧ py_len kv.2 = Return d ∧
               shots = default (Z.of_nat d) metadata_shots.
Proof.
  unfold get_shots. destruct raw as [|[k v] raw']; simpl; [done|].
  destruct (py_len v) as [d|] eqn:Hd; simpl; [|done].
  intros [= <-]. by exists (k, v), raw', d.
Qed.

Lemma strictly_descending_NoDup (l : list nat) : StronglySorted gt l → NoDup l.
Proof.
  induction 1 as [|x l _ IH Hx]; constructor; [|done].
  intros Hin. pose proof (proj1 (Forall_forall _ _) Hx x Hin). lia.
Qed.

(** There is one strictly descending list of a given set of indices. *)
Lemma strictly_descending_unique (l1 l2 : list nat) :
  StronglySorted gt l1 → StronglySorted gt l2 → (∀ c, c ∈ l1 ↔ c ∈ l2) → l1 = l2.
Proof.
  intros H1 H2 Hiff.
  apply (StronglySorted_unique_strong gt); [intros; lia|done..|].
  apply NoDup_Permutation; auto using strictly_descending_NoDup.
Qed.

Lemma format_iqm_result_refines from_string metadata_shots raw out :
  _format_iqm_result from_string metadata_shots raw = Return out →
  ∃ shots measurements regs,
    get_shots metadata_shots raw = Return shots ∧
    process_entries from_string shots raw ∅ = Return measurements ∧
    grids_of from_string (Z.to_nat shots) raw measurements ∧
    0 < shots ∧
    Forall (λ kv, discover_shape kv.2 = Some [Z.to_nat shots; 1%nat]) raw ∧
    StronglySorted gt regs ∧
    (∀ c, c ∈ regs ↔ is_Some (register_width from_string raw c)) ∧
    out = spec_shot_string from_string raw regs <$> seq 0 (Z.to_nat shots).
Proof.
  unfold _format_iqm_result.
  destruct (get_shots metadata_shots raw) as [shots|] eqn:Hshots; simpl; [|done].
  destruct (process_entries from_string shots raw ∅) as [ms|] eqn:Hloop; simpl; [|done].
  intros [= <-].
  pose proof (process_entries_grids_of from_string shots raw [] ∅ ms
                (grids_of_empty from_string _) Hloop) as Hinv. simpl in Hinv.
  pose proof Hloop as [Hshapes Hpos]%process_entries_shapes.
  apply get_shots_Return in Hshots as Hne.
  destruct Hne as (kv & raw' & d & -> & _ & _).
  assert (sorted_reverse ms ≡ₚ map_to_list ms) as Hperm
    by apply merge_sort_Permutation.
  exists shots, ms, (sorted_reverse ms).*1.
  split_and!; [done|done|done|by apply Hpos|done| | |].
  - apply sorted_reverse_strict.
    + apply StronglySorted_merge_sort; apply _.
    + rewrite Hperm. apply NoDup_fst_map_to_list.
  - intros c. rewrite Hperm, list_elem_of_fmap. split.
    + intros ([c' g] & -> & Hin%elem_of_map_to_list). simpl.
      rewrite (Hinv c') in Hin. apply fmap_Some in Hin as (w & Hw & _). eauto.
    + intros [w Hw]. eexists (c, _). split; [done|].
      apply elem_of_map_to_list. by rewrite Hinv, Hw.
  - apply Forall_fmap_ext, Forall_forall. intros s [_ Hs]%elem_of_seq.
    unfold shot_string, spec_shot_string. f_equal.
    rewrite <- list_fmap_compose.
    apply Forall_fmap_ext, Forall_forall. intros [c g] Hin. simpl.
    rewrite Hperm in Hin. apply elem_of_map_to_list in Hin.
    rewrite (Hinv c) in Hin. unfold spec_register_string.
    destruct (register_width from_string (kv :: raw') c) as [w|]; simpl in Hin; [|done].
    injection Hin as <-. simpl. by rewrite row_reversed_grid_of by lia.
Qed.

(** C1. Register ordering and bit ordering of the reassembly.  Whenever
    the reassembly of a raw measurement map returns, the string of every
    shot is the specified one: the registers that have entries, in
    strictly descending order of [creg_idx], each rendered from its
    highest [clbit_idx] down to bit 0, the register strings joined by a
    single space.  In particular, when the registers are 0 (width 2) and
    1 (width 3) and in some shot register 1 holds [1,0,1] and register 0
    holds [0,1], the string of that shot is "101 10". *)
Theorem format_iqm_result_ordering from_string metadata_shots raw out :
  _format_iqm_result from_string metadata_shots raw = Return out →
  ∃ shots regs,
    get_shots metadata_shots raw = Return shots ∧
    StronglySorted gt regs ∧
    (∀ c, c ∈ regs ↔ is_Some (register_width from_string raw c)) ∧
    out = spec_shot_string from_string raw regs <$> seq 0 (Z.to_nat shots) ∧
    ∀ s, (s < Z.to_nat shots)%nat →
      (∀ c, is_Some (register_width from_string raw c) ↔ c = 0%nat ∨ c = 1%nat) →
      register_width from_string raw 0 = Some 2%nat →
      register_width from_string raw 1 = Some 3%nat →
      (λ b, spec_bit from_string raw 1 b s) <$> [0; 1; 2]%nat = [1; 0; 1] →
      (λ b, spec_bit from_string raw 0 b s) <$> [0; 1]%nat = [0; 1] →
      out !! s = Some "101 10"%string.
Proof.
  intros (shots & ms & regs & Hshots & _ & _ & _ & _ & Hsorted & Hregs & ->)
    %format_iqm_result_refines.
  exists shots, regs. split_and!; [done..|].
  intros s Hs Hdom Hw0 Hw1 Hrow1 Hrow0.
  assert (regs = [1; 0]%nat) as ->.
  { apply strictly_descending_unique; [done|repeat constructor; lia|].
    intros c. rewrite Hregs, Hdom, !elem_of_cons, elem_of_nil. lia. }
  rewrite list_lookup_fmap, lookup_seq_lt by done. simpl. f_equal.
  unfold spec_shot_string, spec_register_string. simpl.
  rewrite Hw0, Hw1. simpl.
  injection Hrow1 as -> -> ->. injection Hrow0 as -> ->. reflexivity.
Qed.

Lemma format_iqm_result_ordering_witness :
  _format_iqm_result (key_table demo_keys) None demo_raw
    = Return ["101 10"; "011 11"]%string ∧
  ∃ shots regs,
    get_shots None demo_raw = Return shots ∧
    StronglySorted gt regs ∧
    (∀ c, c ∈ regs ↔ is_Some (register_width (key_table demo_keys) demo_raw c)) ∧
    ["101 10"; "011 11"]%string
      = spec_shot_string (key_table demo_keys) demo_raw regs <$> seq 0 (Z.to_nat shots) ∧
    ∀ s, (s < Z.to_nat shots)%nat →
      (∀ c, is_Some (register_width (key_table demo_keys) demo_raw c)
            ↔ c = 0%nat ∨ c = 1%nat) →
      register_width (key_table demo_keys) demo_raw 0 = Some 2%nat →
      register_width (key_table demo_keys) demo_raw 1 = Some 3%nat →
      (λ b, spec_bit (key_table demo_keys) demo_raw 1 b s) <$> [0; 1; 2]%nat = [1; 0; 1] →
      (λ b, spec_bit (key_table demo_keys) demo_raw 0 b s) <$> [0; 1]%nat = [0; 1] →
      ["101 10"; "011 11"]%string !! s = Some "101 10"%string.
Proof.
  split; [reflexivity|].
  apply (format_iqm_result_ordering (key_table demo_keys) None demo_raw).
  reflexivity.
Defined.

(** ** Zero fill *)

Lemma append_cons a p s : String a p +:+ s = String a (p +:+ s).
Proof. reflexivity. Qed.

Lemma append_empty_r p : p +:+ "" = p.
Proof. induction p as [|a p IH]; [done|]. by rewrite append_cons, IH. Qed.

Lemma str_bits_cons z l : str_bits (z :: l) = pretty z +:+ str_bits l.
Proof.
  unfold str_bits. simpl. destruct l as [|z' l]; simpl; [|done].
  by rewrite append_empty_r.
Qed.

Lemma str_bits_of_bits l :
  Forall is_bit l →
  String.length (str_bits l) = length l ∧
  ∀ i z, l !! i = Some z → String.get i (str_bits l) = Some (bit_char z).
Proof.
  induction 1 as [|z l Hz _ [IHlen IHget]]; [done|].
  rewrite str_bits_cons.
  assert (pretty z = String (bit_char z) EmptyString) as ->
    by (by destruct Hz as [-> | ->]).
  rewrite append_cons. change ("" +:+ str_bits l) with (str_bits l).
  simpl. split; [by rewrite IHlen|].
  intros [|i] z'; simpl; [by intros [= ->]|]. apply IHget.
Qed.

Section ZeroFill.
Variable from_string : string → MeasurementKey.

Lemma written_column_Some raw c b col :
  written_column from_string raw c b = Some col →
  ∃ kv, kv ∈ raw ∧ writes from_string c b kv ∧ col = column0 kv.2.
Proof.
  induction raw as [|kv raw IH]; simpl; [done|].
  destruct (written_column from_string raw c b) as [col'|].
  - intros [= <-]. destruct IH as (kv' & ? & ? & ?); [done|].
    exists kv'. split_and!; [by right|done..].
  - destruct (decide _); [|done]. intros [= <-].
    exists kv. split_and!; [by left|done..].
Qed.

Lemma written_column_None raw c b :
  (∀ kv, kv ∈ raw → ¬ writes from_string c b kv) →
  written_column from_string raw c b = None.
Proof.
  intros Hno. destruct (written_column from_string raw c b) as [col|] eqn:Hcol; [|done].
  apply written_column_Some in Hcol as (kv & Hin & Hw & _). by destruct (Hno kv).
Qed.

Lemma spec_bit_unwritten raw c b s :
  (∀ kv, kv ∈ raw → ¬ writes from_string c b kv) → spec_bit from_string raw c b s = 0.
Proof. intros Hno. unfold spec_bit. by rewrite written_column_None. Qed.

Lemma spec_bit_is_bit raw c b s :
  bits_only raw → is_bit (spec_bit from_string raw c b s).
Proof.
  intros Hbits. unfold spec_bit.
  destruct (written_column from_string raw c b) as [col|] eqn:Hcol; simpl; [|by left].
  apply written_column_Some in Hcol as (kv & Hin & _ & ->).
  destruct (column0 kv.2 !! s) as [z|] eqn:Hz; simpl; [|by left].
  pose proof (proj1 (Forall_forall _ _) Hbits kv Hin) as Hkv. simpl in Hkv.
  apply (proj1 (Forall_forall _ _) Hkv). by eapply list_elem_of_lookup_2.
Qed.

(** With bits as data, the string of a register has one character per
    bit of the register, bit [b] at position [n - 1 - b]. *)
Lemma spec_register_string_bits raw c n s :
  bits_only raw → register_width from_string raw c = Some n →
  String.length (spec_register_string from_string raw c s) = n ∧
  ∀ b, (b < n)%nat →
    String.get (n - 1 - b) (spec_register_string from_string raw c s)
    = Some (bit_char (spec_bit from_string raw c b s)).
Proof.
  intros Hbits Hn. unfold spec_register_string. rewrite Hn. simpl.
  destruct (str_bits_of_bits ((λ b, spec_bit from_string raw c b s) <$> reverse (seq 0 n)))
    as [Hlen Hget].
  { apply Forall_fmap, Forall_forall. intros b _. by apply spec_bit_is_bit. }
  split; [by rewrite Hlen, length_fmap, length_reverse, length_seq|].
  intros b Hb. apply Hget.
  rewrite list_lookup_fmap, reverse_lookup by (rewrite length_seq; lia).
  rewrite length_seq, lookup_seq_lt by lia. simpl. do 3 f_equal. lia.
Qed.
End ZeroFill.

Lemma register_width_Some from_string raw c w :
  register_width from_string raw c = Some w →
  ∃ kv, kv ∈ raw ∧ creg_idx (from_string kv.1) = c.
Proof.
  induction raw as [|kv raw IH]; simpl; [done|].
  destruct (decide (creg_idx (from_string kv.1) = c)) as [Heq|_].
  - intros _. exists kv. split; [by left|done].
  - intros (kv' & ? & ?)%IH. exists kv'. split; [by right|done].
Qed.

Lemma sparse_raw_bits : bits_only sparse_raw.
Proof.
  unfold bits_only, sparse_raw, column. simpl.
  repeat first [apply Forall_nil_2 | apply Forall_cons_2 | by left | by right].
Qed.

(** C3. Zero fill.  Whenever the reassembly returns, every cell of a
    register's grid that no raw-map entry writes is 0; with bits as
    data the string of a register of width [n] has [n] characters and
    the character of such a bit [b], at position [n - 1 - b], is '0'.
    In particular, when the entries all belong to one register of width
    [n] and measure only its bits 0 and 2, every per-shot string has [n]
    characters, with '0' at the positions of bit 1 and of bits 3 to
    [n - 1]. *)
Theorem format_iqm_result_zero_fill from_string metadata_shots raw out :
  _format_iqm_result from_string metadata_shots raw = Return out →
  ∃ shots measurements regs,
    get_shots metadata_shots raw = Return shots ∧
    process_entries from_string shots raw ∅ = Return measurements ∧
    (∀ c creg b s,
        measurements !! c = Some creg →
        (b < ncols creg)%nat → (s < Z.to_nat shots)%nat →
        (∀ kv, kv ∈ raw → ¬ writes from_string c b kv) →
        rows creg !! s ≫= (.!! b) = Some 0) ∧
    out = spec_shot_string from_string raw regs <$> seq 0 (Z.to_nat shots) ∧
    (bits_only raw →
     ∀ c n b s,
        register_width from_string raw c = Some n → (b < n)%nat →
        (∀ kv, kv ∈ raw → ¬ writes from_string c b kv) →
        String.length (spec_register_string from_string raw c s) = n ∧
        String.get (n - 1 - b) (spec_register_string from_string raw c s)
        = Some "0"%char) ∧
    (bits_only raw →
     ∀ c n,
        register_width from_string raw c = Some n →
        (∀ kv, kv ∈ raw →
           creg_idx (from_string kv.1) = c ∧
           (clbit_idx (from_string kv.1) = 0 ∨ clbit_idx (from_string kv.1) = 2)%nat) →
        ∀ s str, out !! s = Some str →
          String.length str = n ∧
          ∀ b, (b = 1 ∨ 3 ≤ b)%nat → (b < n)%nat →
               String.get (n - 1 - b) str = Some "0"%char).
Proof.
  intros (shots & ms & regs & Hshots & Hloop & Hinv & _ & _ & Hsorted & Hregs & ->)
    %format_iqm_result_refines.
  assert (∀ c n b s,
    bits_only raw → register_width from_string raw c = Some n → (b < n)%nat →
    (∀ kv, kv ∈ raw → ¬ writes from_string c b kv) →
    String.length (spec_register_string from_string raw c s) = n ∧
    String.get (n - 1 - b) (spec_register_string from_string raw c s)
    = Some "0"%char) as Hchar.
  { intros c n b s Hbits Hn Hb Hno.
    destruct (spec_register_string_bits from_string raw c n s Hbits Hn) as [Hlen Hget].
    split; [done|]. by rewrite Hget, spec_bit_unwritten by done. }
  exists shots, ms, regs. split_and!; [done|done| |done|by eauto|].
  - intros c creg b s Hc Hb Hs Hno. rewrite (Hinv c) in Hc.
    destruct (register_width from_string raw c) as [w|]; simpl in Hc; [|done].
    injection Hc as <-. simpl in *.
    rewrite list_lookup_fmap, lookup_seq_lt by done. simpl.
    rewrite list_lookup_fmap, lookup_seq_lt by done. simpl.
    by rewrite spec_bit_unwritten.
  - intros Hbits c n Hn Honly s str Hstr.
    assert (regs = [c]) as ->.
    { apply strictly_descending_unique; [done|repeat constructor|].
      intros c'. rewrite Hregs, list_elem_of_singleton. split.
      - intros [w (kv & Hin & <-)%register_width_Some]. by apply Honly.
      - intros ->. by rewrite Hn. }
    apply list_lookup_fmap_Some in Hstr as (s' & -> & Hs').
    unfold spec_shot_string. simpl. split.
    + by destruct (spec_register_string_bits from_string raw c n s' Hbits Hn).
    + intros b Hb Hbn. apply Hchar; [done..|].
      intros kv Hin [_ Hw]. destruct (Honly kv Hin) as [_ ?]. lia.
Qed.

Lemma format_iqm_result_zero_fill_witness :
  _format_iqm_result (key_table sparse_keys) None sparse_raw
    = Return ["00101"; "00100"]%string ∧
  ∀ s str, ["00101"; "00100"]%string !! s = Some str →
    String.length str = 5%nat ∧
    ∀ b, (b = 1 ∨ 3 ≤ b)%nat → (b < 5)%nat →
         String.get (5 - 1 - b) str = Some "0"%char.
Proof.
  split; [reflexivity|].
  destruct (format_iqm_result_zero_fill (key_table sparse_keys) None sparse_raw
              ["00101"; "00100"]%string eq_refl)
    as (shots & ms & regs & _ & _ & _ & _ & _ & Hparticular).
  apply (Hparticular sparse_raw_bits 0%nat 5%nat eq_refl).
  intros kv Hin. repeat (apply elem_of_cons in Hin as [->|Hin]); simpl; auto.
  by apply elem_of_nil in Hin.
Defined.

(** ** Which raw maps the loop accepts *)


Lemma discover_shape_column zs :
  zs ≠ [] → discover_shape (column zs) = Some [length zs; 1%nat].
Proof.
  destruct zs as [|z zs]; [done|]. intros _. unfold column. simpl.
  replace (forallb _ _) with true; [by rewrite length_fmap|].
  symmetry. apply forallb_forall. intros o (v & <- & Hin)%in_map_iff.
  apply list_elem_of_In, list_elem_of_fmap in Hin as (z' & -> & _). done.
Qed.

Lemma discover_shape_PList l sh : discover_shape (PList l) = Some sh → ∃ sh', sh = length l :: sh'.
Proof.
  simpl. destruct l as [|x l]; simpl; [intros [= <-]; by exists []|].
  destruct (discover_shape x) as [shx|]; [|done].
  case_match; [|done]. intros [= <-]. by exists shx.
Qed.

(** An array of shape [(1,)] is a list of one integer. *)
Lemma discover_shape_row x : discover_shape x = Some [1%nat] → ∃ z, x = PList [PInt z].
Proof.
  destruct x as [z|l]; simpl; [done|].
  destruct l as [|y l]; simpl; [done|].
  destruct (discover_shape y) as [shy|] eqn:Hy; [|done].
  case_match; [|done]. intros [= Hl ->].
  destruct l; [|done]. destruct y as [z|l']; [by exists z|].
  by apply discover_shape_PList in Hy as [? ?].
Qed.

(** An array of shape [(n, 1)] is a column: a list of [n] one-element rows. *)
Lemma discover_shape_is_column v n :
  discover_shape v = Some [n; 1%nat] → ∃ zs, v = column zs ∧ length zs = n.
Proof.
  destruct v as [z|l]; simpl; [done|].
  destruct (map discover_shape l) as [|[sh|] rest] eqn:Hmap; [done| |done].
  destruct (forallb _ rest) eqn:Hall; [|done]. intros [= <- ->].
  assert (Forall (λ x, discover_shape x = Some [1%nat]) l) as Hrows.
  { apply Forall_forall. intros x Hx%list_elem_of_In.
    apply (in_map discover_shape) in Hx. rewrite Hmap in Hx. destruct Hx as [<-|Hx]; [done|].
    pose proof (proj1 (forallb_forall _ _) Hall _ Hx) as Hx'. simpl in Hx'.
    by apply bool_decide_eq_true in Hx'. }
  clear Hmap Hall. induction Hrows as [|x l [z ->]%discover_shape_row _ (zs & Hzs & Hlen)].
  - by exists [].
  - exists (z :: zs). injection Hzs as ->. split; [done|]. simpl. by rewrite Hlen.
Qed.

Section Acceptance.
Variable from_string : string → MeasurementKey.
Local Abbreviation in_range := (in_range from_string).

Lemma register_width_app raw1 raw2 c :
  register_width from_string (raw1 ++ raw2) c
  = match register_width from_string raw1 c with
    | Some w => Some w
    | None => register_width from_string raw2 c
    end.
Proof.
  induction raw1 as [|kv raw1 IH]; simpl; [done|].
  by destruct (decide (creg_idx (from_string kv.1) = c)).
Qed.


Lemma process_entries_accepts shots items pre measurements :
  grids_of from_string (Z.to_nat shots) pre measurements →
  Forall (λ kv, discover_shape kv.2 = Some [Z.to_nat shots; 1%nat]) items →
  Forall (λ kv, fits_int64 kv.2 = true) items →
  Forall (in_range (pre ++ items)) items →
  ∃ measurements', process_entries from_string shots items measurements
                   = Return measurements'.
Proof.
  revert pre measurements.
  induction items as [|kv items IH]; intros pre ms Hinv Hshapes Hfits Hrange; simpl;
    [eauto|].
  apply Forall_cons in Hshapes as [Hsh Hshapes].
  apply Forall_cons in Hfits as [Hfit Hfits].
  apply Forall_cons in Hrange as [(w & Hw & Hb) Hrange].
  destruct (setdefault_grid_of from_string _ pre ms kv Hinv) as (w' & f & Hcreg & Hw' & _).
  assert (w' = w) as ->.
  { rewrite cons_middle, app_assoc, register_width_app, Hw' in Hw. congruence. }
  assert (process_entry from_string shots ms kv
          = Return (<[creg_idx (from_string kv.1) :=
                        grid_of (Z.to_nat shots) w
                          (λ b' s, if decide (b' = clbit_idx (from_string kv.1))
                                   then default 0 (column0 kv.2 !! s) else f b' s)]> ms))
    as Hstep.
  { unfold process_entry, np_array. rewrite Hsh, Hfit. simpl.
    pose proof (discover_shape_rows_nonempty _ _ _ Hsh).
    rewrite decide_True by (f_equal; lia).
    rewrite Hcreg, set_column_grid_of; [done|done|].
    by eapply discover_shape_column0_length. }
  rewrite Hstep. simpl.
  apply (IH (pre ++ [kv])); [|done|done|].
  - eapply process_entry_grids_of; [done|]. exact Hstep.
  - by rewrite <- app_assoc.
Qed.
End Acceptance.

(** ** The shape check *)



(** A successful reassembly has at least one shot: its result is never
    the empty list. *)
Lemma format_iqm_result_nonempty from_string metadata_shots raw out :
  _format_iqm_result from_string metadata_shots raw = Return out → out ≠ [].
Proof.
  intros (shots & ms & regs & _ & _ & _ & Hpos & _ & _ & _ & ->)%format_iqm_result_refines.
  intros Hnil%(f_equal length). rewrite length_fmap, length_seq in Hnil. simpl in Hnil. lia.
Qed.










(** C6. Shot-count determination.  On a raw map with a first column
    the shot count is the one recorded in the metadata when there is one
    and the length of that column otherwise.  On the empty raw map the
    recorded count is not used: line 47 evaluates the length of the first
    column before it consults the metadata, and with no column at all
    that evaluation raises [StopIteration], whatever the metadata
    records. *)
Theorem get_shots_empty_raw from_string (recorded : Z) :
  (∀ k l raw, get_shots (Some recorded) ((k, PList l) :: raw) = Return recorded ∧
              get_shots None ((k, PList l) :: raw) = Return (Z.of_nat (length l))) ∧
  get_shots (Some recorded) [] = Raise StopIteration ∧
  _format_iqm_result from_string (Some recorded) [] = Raise StopIteration.
Proof. repeat split; reflexivity. Qed.



(** ** The state machine around the cached result *)

Section JobFacts.
Context {World UUID : Type}.
Variable from_string : string → MeasurementKey.
Variable uuid_UUID : string → option UUID.
Variable wait_for_results : UUID → World → Outcome RunResult.t * World.
Variable get_run : UUID → World → Outcome RunResult.t * World.
Variable today : World → date * World.

Import IQMJob.
Local Abbreviation State := (@IQMJob.State World UUID).
Local Abbreviation status := (IQMJob.status from_string uuid_UUID get_run).
Local Abbreviation result := (IQMJob.result from_string uuid_UUID wait_for_results today).
Local Abbreviation step := (step from_string uuid_UUID wait_for_results get_run today).
Local Abbreviation run := (run from_string uuid_UUID wait_for_results get_run today).

Ltac run_py :=
  unfold IQMJob.status, IQMJob.result, parse_job_id, call_client, call_today,
    format_iqm_result, set_result, get_job, log, outside, pure, raise;
  unfold mbind, mret, Py_bind, Py_ret; simpl.

Lemma status_cached (st : State) :
  truthy (_result (job st)) = true → status st = (Return DONE, st).
Proof. intros Hc. run_py. by rewrite Hc. Qed.

Lemma result_cached (st : State) :
  truthy (_result (job st)) = true →
  ∃ r, _result (job st) = Some r ∧
    result st
    = (Return (result_of (job st) r (today (world st)).1),
       {| job := job st; world := (today (world st)).2;
          trace := trace st ++ [Call_today] |}).
Proof.
  intros Hc. destruct (_result (job st)) as [r|] eqn:Hr; [|done].
  exists r. split; [done|]. run_py. rewrite Hr, Hc. simpl. rewrite Hr.
  by destruct (today (world st)).
Qed.

(** The uncached path of [status], step by step. *)
Lemma status_uncached (st : State) :
  truthy (_result (job st)) = false →
  status st =
    match uuid_UUID (_job_id (job st)) with
    | None => (Raise UUIDError, st)
    | Some u =>
        let polled := {| job := job st; world := (get_run u (world st)).2;
                         trace := trace st ++ [Call_get_run u] |} in
        match (get_run u (world st)).1 with
        | Raise e => (Raise e, polled)
        | Return iqm_result =>
            if decide (RunResult.status iqm_result = READY) then
              let formatted := {| job := job st; world := world polled;
                                  trace := trace polled ++ [Call_format_iqm_result] |} in
              match _format_iqm_result from_string (metadata_shots (job st))
                      (RunResult.measurements iqm_result) with
              | Raise e => (Raise e, formatted)
              | Return r =>
                  (Return DONE,
                   {| job := with_result (job st) r; world := world polled;
                      trace := trace formatted |})
              end
            else (Return RUNNING, polled)
        end
    end.
Proof.
  intros Hc. run_py. rewrite Hc.
  destruct (uuid_UUID (_job_id (job st))) as [u|]; [|done].
  destruct (get_run u (world st)) as [[rr|e] w]; simpl; [|done].
  destruct (decide (RunResult.status rr = READY)); [|done].
  by destruct (_format_iqm_result _ _ _).
Qed.

(** The uncached path of [result], step by step. *)
Lemma result_uncached (st : State) :
  truthy (_result (job st)) = false →
  result st =
    match uuid_UUID (_job_id (job st)) with
    | None => (Raise UUIDError, st)
    | Some u =>
        let waited := {| job := job st; world := (wait_for_results u (world st)).2;
                         trace := trace st ++ [Call_wait_for_results u] |} in
        match (wait_for_results u (world st)).1 with
        | Raise e => (Raise e, waited)
        | Return iqm_result =>
            let formatted := {| job := job st; world := world waited;
                                trace := trace waited ++ [Call_format_iqm_result] |} in
            match _format_iqm_result from_string (metadata_shots (job st))
                    (RunResult.measurements iqm_result) with
            | Raise e => (Raise e, formatted)
            | Return r =>
                (Return (result_of (job st) r (today (world waited)).1),
                 {| job := with_result (job st) r; world := (today (world waited)).2;
                    trace := trace formatted ++ [Call_today] |})
            end
        end
    end.
Proof.
  intros Hc. run_py. rewrite Hc.
  destruct (uuid_UUID (_job_id (job st))) as [u|]; [|done].
  destruct (wait_for_results u (world st)) as [[rr|e] w]; simpl; [|done].
  destruct (_format_iqm_result _ _ _); simpl; [|done].
  by destruct (today w).
Qed.

Lemma count_events_app p (tr1 tr2 : list (@Event UUID)) :
  count_events p (tr1 ++ tr2) = (count_events p tr1 + count_events p tr2)%nat.
Proof. induction tr1 as [|e tr1 IH]; simpl; [done|]. rewrite IH. lia. Qed.

Lemma truthy_nonempty r : r ≠ [] → truthy (Some r) = true.
Proof. by destruct r. Qed.

(** When [status] answers [DONE] the result is cached. *)
Lemma status_DONE_cached (st st1 : State) :
  status st = (Return DONE, st1) → truthy (_result (job st1)) = true.
Proof.
  destruct (truthy (_result (job st))) eqn:Hc.
  - rewrite status_cached by done. by intros [= <-].
  - rewrite status_uncached by done.
    destruct (uuid_UUID _) as [u|]; [|done]. simpl.
    destruct (get_run u (world st)).1 as [rr|]; [|done].
    destruct (decide _); [|done].
    destruct (_format_iqm_result _ _ _) as [r|] eqn:Hr; [|done].
    intros [= <-]. simpl. by eapply truthy_nonempty, format_iqm_result_nonempty.
Qed.

(** A cached result stays cached, and no call polls the client again. *)
Lemma step_cached (st : State) op :
  truthy (_result (job st)) = true →
  truthy (_result (job (step st op))) = true ∧
  count_events is_get_run (trace (step st op)) = count_events is_get_run (trace st) ∧
  count_events is_wait_for_results (trace (step st op))
  = count_events is_wait_for_results (trace st).
Proof.
  intros Hc. destruct op; simpl; try done.
  - by rewrite status_cached.
  - destruct (result_cached st Hc) as (r & _ & ->). simpl.
    rewrite !count_events_app. simpl. split_and!; [done|lia..].
Qed.

Lemma run_cached ops (st : State) :
  truthy (_result (job st)) = true →
  truthy (_result (job (run ops st))) = true ∧
  count_events is_get_run (trace (run ops st)) = count_events is_get_run (trace st) ∧
  count_events is_wait_for_results (trace (run ops st))
  = count_events is_wait_for_results (trace st).
Proof.
  revert st. induction ops as [|op ops IH]; intros st Hc; simpl; [done|].
  destruct (step_cached st op Hc) as (Hc' & Hg & Hw).
  destruct (IH _ Hc') as (? & ? & ?). split_and!; [done|congruence..].
Qed.

(** No sequence of calls on a new job ever stores the empty list. *)
Lemma step_result_not_empty (st : State) op :
  _result (job st) ≠ Some [] → _result (job (step st op)) ≠ Some [].
Proof.
  intros Hne. destruct op; simpl; try done.
  - destruct (truthy (_result (job st))) eqn:Hc.
    { by rewrite status_cached. }
    rewrite status_uncached by done.
    destruct (uuid_UUID _) as [u|]; [|done]. simpl.
    destruct (get_run u (world st)).1 as [rr|]; [|done].
    destruct (decide _); [|done].
    destruct (_format_iqm_result _ _ _) as [r|] eqn:Hr; [|done].
    simpl. intros [= ->]. by eapply format_iqm_result_nonempty.
  - destruct (truthy (_result (job st))) eqn:Hc.
    { by destruct (result_cached st Hc) as (r & _ & ->). }
    rewrite result_uncached by done.
    destruct (uuid_UUID _) as [u|]; [|done]. simpl.
    destruct (wait_for_results u (world st)).1 as [rr|]; [|done].
    destruct (_format_iqm_result _ _ _) as [r|] eqn:Hr; [|done].
    simpl. intros [= ->]. by eapply format_iqm_result_nonempty.
Qed.

Lemma run_result_not_empty ops (st : State) :
  _result (job st) ≠ Some [] → _result (job (run ops st)) ≠ Some [].
Proof.
  revert st. induction ops as [|op ops IH]; intros st Hne; simpl; [done|].
  by apply IH, step_result_not_empty.
Qed.

(** *** Counting *)

Lemma Counter_fold_lookup memory (counts : gmap string nat) x :
  foldl (λ counts x, <[x := S (default 0%nat (counts !! x))]> counts) counts memory !! x
  = if decide (occurrences x memory = 0%nat) then counts !! x
    else Some (occurrences x memory + default 0 (counts !! x))%nat.
Proof.
  revert counts. induction memory as [|y memory IH]; intros counts; simpl; [done|].
  rewrite IH. destruct (decide (y = x)) as [->|Hne].
  - rewrite lookup_insert_eq. simpl.
    destruct (decide (occurrences x memory = 0%nat)) as [->|_]; [done|].
    f_equal. lia.
  - rewrite lookup_insert_ne by done. simpl. done.
Qed.

Lemma Counter_lookup memory x :
  Counter memory !! x
  = if decide (occurrences x memory = 0%nat) then None else Some (occurrences x memory).
Proof.
  unfold Counter. rewrite Counter_fold_lookup, lookup_empty. simpl.
  case_decide; [done|]. f_equal. lia.
Qed.

Lemma occurrences_0 memory x : occurrences x memory = 0%nat ↔ x ∉ memory.
Proof.
  induction memory as [|y memory IH]; simpl.
  - split; [intros _; apply not_elem_of_nil|done].
  - rewrite not_elem_of_cons, <- IH. destruct (decide (y = x)) as [->|]; simpl.
    + split; [done|]. by intros [? _].
    + split; [done|]. by intros [_ ?].
Qed.

(** *** The methods of the job *)

(** After a call of [result] that returns, the result is cached and
    the object returned is built from the cache. *)
Lemma result_Return (st st1 : State) r1 :
  result st = (Return r1, st1) →
  ∃ r, _result (job st1) = Some r ∧ r ≠ [] ∧
       _job_id (job st1) = _job_id (job st) ∧
       r1 = result_of (job st1) r (Result.date_ r1).
Proof.
  destruct (truthy (_result (job st))) eqn:Hc.
  - destruct (result_cached st Hc) as (r & Hr & ->). intros [= <- <-]. simpl.
    exists r. split_and!; [done| |done..]. intros ->. by rewrite Hr in Hc.
  - rewrite result_uncached by done.
    destruct (uuid_UUID _) as [u|]; [|done]. simpl.
    destruct (wait_for_results u (world st)).1 as [rr|]; [|done].
    destruct (_format_iqm_result _ _ _) as [r|] eqn:Hr; [|done].
    intros [= <- <-]. simpl. exists r. split_and!; [done| |done..].
    by eapply format_iqm_result_nonempty.
Qed.

(** C4 (amended). When a call of [result] returns, a later call, made
    whatever happened outside in between, returns too; it only reads
    the clock: no [wait_for_results], no reassembly; and its result is
    the first one with the date as read by this call, hence the very
    same object when the clock gives the same date.  The first call
    itself, on a job without cached result, makes exactly one
    [wait_for_results] call and one reassembly pass. *)
Theorem result_twice (st st1 st1' : State) r1 :
  result st = (Return r1, st1) →
  job st1' = job st1 →
  ∃ r2 st2,
    result st1' = (Return r2, st2) ∧
    r2 = with_date r1 (today (world st1')).1 ∧
    (r2 = r1 ↔ (today (world st1')).1 = Result.date_ r1) ∧
    job st2 = job st1' ∧
    trace st2 = trace st1' ++ [Call_today] ∧
    (truthy (_result (job st)) = false →
     ∃ u, trace st1 = trace st ++ [Call_wait_for_results u; Call_format_iqm_result;
                                   Call_today]).
Proof.
  intros Hfirst Hjob.
  destruct (result_Return _ _ _ Hfirst) as (r & Hr & Hne & Hid & Hr1).
  assert (truthy (_result (job st1')) = true) as Hc
    by (rewrite Hjob, Hr; by apply truthy_nonempty).
  destruct (result_cached st1' Hc) as (r' & Hr' & Hsecond).
  rewrite Hjob, Hr in Hr'. injection Hr' as <-.
  eexists _, _. split; [exact Hsecond|]. simpl. split_and!; [| |done|done|].
  - rewrite Hr1, Hjob. done.
  - split.
    + intros Heq%(f_equal Result.date_). done.
    + intros ->. rewrite Hr1 at 2. by rewrite Hjob.
  - intros Hunc. rewrite result_uncached in Hfirst by done.
    destruct (uuid_UUID _) as [u|]; [|done]. simpl in Hfirst.
    destruct (wait_for_results u (world st)).1 as [rr|]; [|done].
    destruct (_format_iqm_result _ _ _) as [r0|]; [|done].
    injection Hfirst as _ <-. simpl. exists u. by rewrite <- !app_assoc.
Qed.

(** C5. Status terminal transition.  Once [status] has returned
    [DONE], after any sequence of further calls and of changes outside
    a call of [status] returns [DONE] and leaves the state, trace
    included, as it is; and none of the calls in between has invoked
    [get_run]. *)
Theorem status_DONE_terminal (st st1 : State) ops :
  status st = (Return DONE, st1) →
  status (run ops st1) = (Return DONE, run ops st1) ∧
  count_events is_get_run (trace (run ops st1)) = count_events is_get_run (trace st1).
Proof.
  intros Hc%status_DONE_cached.
  destruct (run_cached ops st1 Hc) as (Hc' & Hg & _).
  split; [by apply status_cached|done].
Qed.

(** C7. Histogram correctness.  When the cached list [memory] is
    returned by [result], the single entry of the result object reports
    [length memory] shots, [memory] itself, and counts that give every
    string occurring in [memory] its number of occurrences and nothing
    to any other string.  In particular the counts of
    ["00", "00", "01"] are {"00": 2, "01": 1} and its shot count is 3. *)
Theorem result_histogram (st : State) memory :
  _result (job st) = Some memory → memory ≠ [] →
  (∃ r st' entry,
     result st = (Return r, st') ∧ Result.results r = [entry] ∧
     Result.shots entry = length memory ∧
     Result.memory entry = memory ∧
     Result.counts entry = Counter memory ∧
     ∀ x, Result.counts entry !! x
          = if decide (x ∈ memory) then Some (occurrences x memory) else None) ∧
  Counter ["00"; "00"; "01"] = {[ "00" := 2%nat; "01" := 1%nat ]} ∧
  length ["00"; "00"; "01"] = 3%nat.
Proof.
  intros Hr Hne. split; [|split; [|done]].
  - destruct (result_cached st) as (r & Hr' & ->).
    { rewrite Hr. by apply truthy_nonempty. }
    rewrite Hr in Hr'. injection Hr' as <-.
    eexists _, _, _. split_and!; [done..|].
    intros x. simpl. rewrite Counter_lookup.
    destruct (decide (x ∈ memory)) as [Hin|Hnin].
    + rewrite decide_False; [done|]. by intros ?%occurrences_0.
    + rewrite decide_True; [done|]. by apply occurrences_0.
  - apply map_eq. intros x. rewrite Counter_lookup. simpl.
    destruct (decide ("00" = x)) as [<-|?]; [done|].
    destruct (decide ("01" = x)) as [<-|?]; [done|].
    simpl. by rewrite lookup_insert_ne, lookup_singleton_ne by done.
Qed.

(** C8. Unsupported operations.  In every state [submit] and [cancel]
    raise [NotImplementedError], each with its message, and leave the
    job, the world and the trace untouched. *)
Theorem submit_cancel_unsupported (st : State) :
  submit st
  = (Raise (NotImplementedError "Instead, use IQMBackend.run to submit jobs."), st) ∧
  cancel st
  = (Raise (NotImplementedError "Canceling jobs is currently not supported."), st).
Proof. split; reflexivity. Qed.



(** A state with the empty list stored is one that no run of a new job
    reaches: the reassembly never returns the empty list. *)
Corollary new_job_never_stores_empty job_id shots w ops :
  _result (job (run ops {| job := __init__ job_id shots; world := w; trace := [] |}))
  ≠ Some [].
Proof. by apply run_result_not_empty. Qed.


End JobFacts.

Lemma demo_result_first :
  demo_result (demo_state None 0)
  = (Return (result_of (demo_job None) demo_memory (demo_date 1)), demo_after_result).
Proof. vm_compute. reflexivity. Defined.

Lemma demo_status_first :
  demo_status (demo_state None 0) = (Return DONE, demo_after_status).
Proof. vm_compute. reflexivity. Defined.

(** C4, as stated, fails: two calls of [result] on either side of
    midnight return objects that differ in their date. *)
Lemma result_twice_not_identical :
  ∃ r1 st1 r2 st2,
    demo_result (demo_state None 0) = (Return r1, st1) ∧
    demo_result (tomorrow st1) = (Return r2, st2) ∧
    r1 ≠ r2.
Proof.
  exists (result_of (demo_job None) demo_memory (demo_date 1)), demo_after_result,
         (result_of (demo_job None) demo_memory (demo_date 2)),
         {| IQMJob.job := demo_job (Some demo_memory); IQMJob.world := 1%nat;
            IQMJob.trace := IQMJob.trace demo_after_result ++ [IQMJob.Call_today] |}.
  split; [exact demo_result_first|]. split; [vm_compute; reflexivity|].
  intros Heq%(f_equal Result.date_). discriminate Heq.
Qed.

Lemma result_twice_witness :
  demo_result (demo_state None 0)
  = (Return (result_of (demo_job None) demo_memory (demo_date 1)), demo_after_result) ∧
  ∃ r2 st2,
    demo_result (tomorrow demo_after_result) = (Return r2, st2) ∧
    r2 = with_date (result_of (demo_job None) demo_memory (demo_date 1))
           (demo_today (IQMJob.world (tomorrow demo_after_result))).1 ∧
    (r2 = result_of (demo_job None) demo_memory (demo_date 1)
     ↔ (demo_today (IQMJob.world (tomorrow demo_after_result))).1
       = Result.date_ (result_of (demo_job None) demo_memory (demo_date 1))) ∧
    IQMJob.job st2 = IQMJob.job (tomorrow demo_after_result) ∧
    IQMJob.trace st2 = IQMJob.trace (tomorrow demo_after_result) ++ [IQMJob.Call_today] ∧
    (IQMJob.truthy (IQMJob._result (IQMJob.job (demo_state None 0))) = false →
     ∃ u, IQMJob.trace demo_after_result
          = IQMJob.trace (demo_state None 0)
            ++ [IQMJob.Call_wait_for_results u; IQMJob.Call_format_iqm_result;
                IQMJob.Call_today]).
Proof.
  split; [exact demo_result_first|].
  exact (result_twice (key_table demo_keys) demo_uuid demo_client demo_today
           (demo_state None 0) demo_after_result (tomorrow demo_after_result) _
           demo_result_first eq_refl).
Defined.

Lemma status_DONE_terminal_witness :
  demo_status (demo_state None 0) = (Return DONE, demo_after_status) ∧
  let st2 := run (key_table demo_keys) demo_uuid demo_client demo_client demo_today
               [Op_result; Op_outside S; Op_status; Op_cancel] demo_after_status in
  demo_status st2 = (Return DONE, st2) ∧
  count_events is_get_run (IQMJob.trace st2)
  = count_events is_get_run (IQMJob.trace demo_after_status).
Proof.
  split; [exact demo_status_first|].
  exact (status_DONE_terminal (key_table demo_keys) demo_uuid demo_client demo_client
           demo_today (demo_state None 0) demo_after_status _ demo_status_first).
Defined.

Lemma result_histogram_witness :
  (∃ r st' entry,
     demo_result (demo_state (Some ["00"; "00"; "01"]) 0) = (Return r, st') ∧
     Result.results r = [entry] ∧
     Result.shots entry = 3%nat ∧
     Result.memory entry = ["00"; "00"; "01"] ∧
     Result.counts entry = Counter ["00"; "00"; "01"] ∧
     ∀ x, Result.counts entry !! x
          = if decide (x ∈ ["00"; "00"; "01"])
            then Some (occurrences x ["00"; "00"; "01"]) else None) ∧
  Counter ["00"; "00"; "01"] = {[ "00" := 2%nat; "01" := 1%nat ]} ∧
  length ["00"; "00"; "01"] = 3%nat.
Proof.
  apply (result_histogram (key_table demo_keys) demo_uuid demo_client demo_today
           (demo_state (Some ["00"; "00"; "01"]) 0) ["00"; "00"; "01"] eq_refl).
  discriminate.
Defined.



(** * Further properties of the reassembly *)

Section ReassemblyMore.
Variable from_string : string → MeasurementKey.
Local Abbreviation grids_of := (grids_of from_string).
Local Abbreviation in_range := (in_range from_string).

(** Every entry that the loop accepts writes inside its register. *)
Lemma process_entries_in_range shots items pre measurements measurements' :
  grids_of (Z.to_nat shots) pre measurements →
  process_entries from_string shots items measurements = Return measurements' →
  Forall (in_range (pre ++ items)) items.
Proof.
  revert pre measurements.
  induction items as [|kv items IH]; intros pre ms Hinv; simpl; [by constructor|].
  destruct (process_entry from_string shots ms kv) as [ms1|] eqn:Hstep; simpl; [|done].
  intros Hrest.
  pose proof (process_entry_grids_of from_string shots pre ms kv ms1 Hinv Hstep) as Hinv1.
  apply process_entry_Return in Hstep as (_ & _ & creg' & Hset & _).
  destruct (setdefault_grid_of from_string _ pre ms kv Hinv) as (w & f & Hcreg & Hw & _).
  rewrite Hcreg in Hset. unfold set_column in Hset. simpl in Hset.
  destruct (decide (clbit_idx (from_string kv.1) < w)%nat) as [Hb|]; [|done].
  constructor.
  - exists w. split; [|done].
    by rewrite cons_middle, app_assoc, register_width_app, Hw.
  - specialize (IH (pre ++ [kv]) ms1 Hinv1 Hrest). by rewrite <- app_assoc in IH.
Qed.

Lemma column_shape (v : PyVal) (n : nat) :
  discover_shape v = Some [n; 1%nat] ↔ ∃ zs, v = column zs ∧ length zs = n ∧ (0 < n)%nat.
Proof.
  split.
  - intros Hsh. destruct (discover_shape_is_column _ _ Hsh) as (zs & -> & Hlen).
    exists zs. split_and!; [done..|]. by eapply discover_shape_rows_nonempty.
  - intros (zs & -> & <- & Hpos). apply discover_shape_column. by destruct zs; simpl in *; [lia|].
Qed.


(** X2. A reassembly that returns gives one string per shot: as many
    strings as every column has rows, which is the recorded shot count
    when there is one; and never none. *)
Theorem format_iqm_result_length metadata_shots raw out :
  _format_iqm_result from_string metadata_shots raw = Return out →
  out ≠ [] ∧
  (∀ recorded, metadata_shots = Some recorded → Z.of_nat (length out) = recorded) ∧
  Forall (λ kv, ∃ zs, kv.2 = column zs ∧ length zs = length out) raw.
Proof.
  intros Hout. split; [by eapply format_iqm_result_nonempty|].
  destruct (format_iqm_result_refines _ _ _ _ Hout)
    as (shots & ms & regs & Hshots & _ & _ & Hpos & Hshapes & _ & _ & ->).
  rewrite length_fmap, length_seq. split.
  - intros recorded ->.
    apply get_shots_Return in Hshots as (kv & raw' & d & _ & _ & ->).
    simpl in *. apply Z2Nat.id. lia.
  - eapply Forall_impl; [exact Hshapes|]. intros kv (zs & ? & ? & _)%column_shape. eauto.
Qed.

(** X3. With a recorded shot count that is zero or negative the reassembly
    never returns. *)
Theorem format_iqm_result_nonpositive_shots recorded raw :
  recorded ≤ 0 → ∀ out, _format_iqm_result from_string (Some recorded) raw ≠ Return out.
Proof.
  intros Hle out (shots & ms & regs & Hshots & _ & _ & Hpos & _)%format_iqm_result_refines.
  apply get_shots_Return in Hshots as (kv & raw' & d & _ & _ & ->). simpl in Hpos. lia.
Qed.

Lemma written_column_last pre kv post c b :
  writes from_string c b kv →
  (∀ kv', kv' ∈ post → ¬ writes from_string c b kv') →
  written_column from_string (pre ++ kv :: post) c b = Some (column0 kv.2).
Proof.
  intros Hw Hpost. induction pre as [|kv0 pre IH]; simpl.
  - rewrite written_column_None by done. by rewrite decide_True.
  - by rewrite IH.
Qed.

(** X4. Last write wins: after the loop, the grid of a register holds in the
    column of a bit the column of the last raw-map entry that measures
    this bit. *)
Theorem process_entries_last_write shots raw measurements pre k v post :
  process_entries from_string shots raw ∅ = Return measurements →
  raw = pre ++ (k, v) :: post →
  (∀ kv', kv' ∈ post →
     ¬ writes from_string (creg_idx (from_string k)) (clbit_idx (from_string k)) kv') →
  ∃ creg,
    measurements !! creg_idx (from_string k) = Some creg ∧
    length (rows creg) = length (column0 v) ∧
    ∀ s z, column0 v !! s = Some z →
           rows creg !! s ≫= (.!! clbit_idx (from_string k)) = Some z.
Proof.
  intros Hloop -> Hpost.
  pose proof (process_entries_grids_of from_string shots _ [] ∅ measurements
                (grids_of_empty _ _) Hloop) as Hinv. simpl in Hinv.
  pose proof (process_entries_in_range shots _ [] ∅ measurements
                (grids_of_empty _ _) Hloop) as Hrange. simpl in Hrange.
  apply process_entries_shapes in Hloop as [Hshapes _].
  apply Forall_app in Hrange as [_ [(w & Hw & Hb) _]%Forall_cons_1].
  apply Forall_app in Hshapes as [_ [Hsh _]%Forall_cons_1]. simpl in *.
  apply discover_shape_column0_length in Hsh.
  set (c := creg_idx (from_string k)) in *. set (b := clbit_idx (from_string k)) in *.
  specialize (Hinv c). rewrite Hw in Hinv. simpl in Hinv.
  eexists. split; [exact Hinv|]. simpl.
  split; [by rewrite length_fmap, length_seq|].
  intros s z Hz. pose proof (lookup_lt_Some _ _ _ Hz) as Hs. rewrite Hsh in Hs.
  rewrite list_lookup_fmap, lookup_seq_lt by done. simpl.
  rewrite list_lookup_fmap, lookup_seq_lt by done. simpl.
  unfold spec_bit. rewrite (written_column_last pre (k, v) post c b); [|done|done].
  simpl. by rewrite Hz.
Qed.

Lemma string_length_app (a b : string) :
  String.length (a +:+ b) = (String.length a + String.length b)%nat.
Proof. induction a as [|x a IH]; [done|]. rewrite append_cons. simpl. by rewrite IH. Qed.

Lemma concat_space_length (l : list string) :
  String.length (String.concat " " l)
  = (sum_list (String.length <$> l) + (length l - 1))%nat.
Proof.
  induction l as [|x l IH]; [done|].
  destruct l as [|y l].
  - simpl. lia.
  - change (String.concat " " (x :: y :: l))
      with (x +:+ " " +:+ String.concat " " (y :: l)).
    rewrite !string_length_app, IH. simpl. lia.
Qed.

(** X5. With bits as data all strings of a reassembly have the same length:
    the widths of the registers that have entries, plus one space
    between two registers. *)
Theorem format_iqm_result_string_length metadata_shots raw out :
  _format_iqm_result from_string metadata_shots raw = Return out →
  bits_only raw →
  ∃ regs,
    StronglySorted gt regs ∧
    (∀ c, c ∈ regs ↔ is_Some (register_width from_string raw c)) ∧
    Forall (λ str, String.length str
                   = (sum_list ((λ c, default 0%nat (register_width from_string raw c))
                                  <$> regs)
                      + (length regs - 1))%nat) out.
Proof.
  intros (shots & ms & regs & _ & _ & _ & _ & _ & Hsorted & Hregs & ->)
    %format_iqm_result_refines Hbits.
  exists regs. split_and!; [done..|].
  apply Forall_fmap, Forall_forall. intros s _. simpl.
  unfold spec_shot_string. rewrite concat_space_length, length_fmap.
  f_equal. f_equal. rewrite <- list_fmap_compose.
  apply Forall_fmap_ext, Forall_forall. intros c Hc. simpl.
  apply Hregs in Hc as [w Hw]. rewrite Hw. simpl.
  by destruct (spec_register_string_bits from_string raw c w s Hbits Hw).
Qed.

(** *** The order of the raw map *)

Lemma consistent_widths_elem raw :
  consistent_widths from_string raw ↔
  ∀ kv kv', kv ∈ raw → kv' ∈ raw →
    creg_idx (from_string kv.1) = creg_idx (from_string kv'.1) →
    creg_len (from_string kv.1) = creg_len (from_string kv'.1).
Proof.
  unfold consistent_widths. rewrite Forall_forall.
  split.
  - intros H kv kv' Hkv Hkv'. by apply (proj1 (Forall_forall _ _) (H kv Hkv)).
  - intros H kv Hkv. apply Forall_forall. intros kv' Hkv'. by apply H.
Qed.

Lemma register_width_elem raw c w :
  register_width from_string raw c = Some w →
  ∃ kv, kv ∈ raw ∧ creg_idx (from_string kv.1) = c ∧ creg_len (from_string kv.1) = w.
Proof.
  induction raw as [|kv raw IH]; simpl; [done|].
  destruct (decide (creg_idx (from_string kv.1) = c)) as [Heq|_].
  - intros [= <-]. exists kv. split_and!; [by left|done..].
  - intros (kv' & ? & ? & ?)%IH. exists kv'. split_and!; [by right|done..].
Qed.

Lemma register_width_consistent raw c kv :
  consistent_widths from_string raw → kv ∈ raw → creg_idx (from_string kv.1) = c →
  register_width from_string raw c = Some (creg_len (from_string kv.1)).
Proof.
  rewrite consistent_widths_elem. intros Hcons Hin Hc.
  destruct (register_width from_string raw c) as [w|] eqn:Hw.
  - apply register_width_elem in Hw as (kv' & Hin' & Hc' & <-).
    f_equal. apply Hcons; [done..|congruence].
  - clear Hcons. induction raw as [|kv0 raw IH]; [by apply elem_of_nil in Hin|].
    simpl in Hw. destruct (decide (creg_idx (from_string kv0.1) = c)); [done|].
    apply elem_of_cons in Hin as [->|Hin]; [done|]. by apply IH.
Qed.

Lemma register_width_Permutation raw raw' c :
  raw' ≡ₚ raw → consistent_widths from_string raw →
  register_width from_string raw' c = register_width from_string raw c.
Proof.
  intros Hperm Hcons.
  assert (consistent_widths from_string raw') as Hcons'.
  { apply consistent_widths_elem. intros kv kv' Hkv Hkv'.
    rewrite Hperm in Hkv, Hkv'.
    by apply (proj1 (consistent_widths_elem raw) Hcons). }
  destruct (register_width from_string raw c) as [w|] eqn:Hw.
  - apply register_width_elem in Hw as (kv & Hin & Hc & <-).
    apply register_width_consistent; [done| |done]. by rewrite Hperm.
  - destruct (register_width from_string raw' c) as [w'|] eqn:Hw'; [|done].
    apply register_width_elem in Hw' as (kv & Hin & Hc & _).
    rewrite Hperm in Hin.
    by rewrite (register_width_consistent raw c kv Hcons Hin Hc) in Hw.
Qed.

Lemma written_column_unique raw c b kv :
  distinct_targets from_string raw → kv ∈ raw → writes from_string c b kv →
  written_column from_string raw c b = Some (column0 kv.2).
Proof.
  intros Hnd Hin Hw. apply list_elem_of_split in Hin as (pre & post & ->).
  apply written_column_last; [done|]. intros kv' Hin' Hw'.
  unfold distinct_targets in Hnd. rewrite fmap_app, fmap_cons in Hnd.
  apply NoDup_app in Hnd as (_ & _ & [Hnin _]%NoDup_cons).
  apply Hnin, list_elem_of_fmap. exists kv'. split; [|done].
  unfold target. destruct Hw as [-> ->], Hw' as [-> ->]. done.
Qed.

Lemma written_column_Permutation raw raw' c b :
  raw' ≡ₚ raw → distinct_targets from_string raw →
  written_column from_string raw' c b = written_column from_string raw c b.
Proof.
  intros Hperm Hnd.
  assert (distinct_targets from_string raw') as Hnd'
    by (unfold distinct_targets; by rewrite Hperm).
  destruct (written_column from_string raw c b) as [col|] eqn:Hcol.
  - apply written_column_Some in Hcol as (kv & Hin & Hw & ->).
    apply written_column_unique; [done| |done]. by rewrite Hperm.
  - destruct (written_column from_string raw' c b) as [col'|] eqn:Hcol'; [|done].
    apply written_column_Some in Hcol' as (kv & Hin & Hw & ->).
    rewrite Hperm in Hin. by rewrite (written_column_unique raw c b kv) in Hcol.
Qed.

(** X6. The order of the entries of the raw map does not matter, as long as
    no bit is measured twice and the keys of a register agree on its
    width: a reassembly that returns, returns the same strings on every
    reordering of the raw map. *)
Theorem format_iqm_result_order_independent metadata_shots raw raw' out :
  _format_iqm_result from_string metadata_shots raw = Return out →
  raw' ≡ₚ raw →
  distinct_targets from_string raw →
  consistent_widths from_string raw →
  _format_iqm_result from_string metadata_shots raw' = Return out.
Proof.
  intros Hout Hperm Hnd Hcons.
  destruct (format_iqm_result_refines _ _ _ _ Hout)
    as (shots & ms & regs & Hshots & Hloop & _ & Hpos & Hshapes & Hsorted & Hregs & ->).
  pose proof (process_entries_in_range shots raw [] ∅ ms (grids_of_empty _ _) Hloop)
    as Hrange. simpl in Hrange.
  assert (get_shots metadata_shots raw' = Return shots) as Hshots'.
  { apply get_shots_Return in Hshots as (kv & raw0 & d & -> & Hd & Hdef).
    assert (∀ kv', kv' ∈ kv :: raw0 → py_len kv'.2 = Return (Z.to_nat shots)) as Hlen.
    { intros kv' Hin. pose proof (proj1 (Forall_forall _ _) Hshapes kv' Hin) as Hsh.
      simpl in Hsh. destruct kv' as [k0 [z|l]]; simpl in *; [done|].
      destruct (discover_shape_PList _ _ Hsh) as (sh & [= Hl _]). by rewrite Hl. }
    rewrite (Hlen kv) in Hd by by left. injection Hd as Hd.
    destruct raw' as [|[k' v'] raw1]; [by apply Permutation_nil_cons in Hperm|].
    assert (py_len v' = Return (Z.to_nat shots)) as Hv'
      by (apply (Hlen (k', v')); rewrite <- Hperm; by left).
    unfold get_shots, len_of_first. rewrite Hv'. simpl. f_equal.
    rewrite Hdef. destruct metadata_shots; simpl in *; [done|]. lia. }
  assert (Forall (λ kv, discover_shape kv.2 = Some [Z.to_nat shots; 1%nat]) raw') as Hshapes'.
  { apply Forall_forall. intros kv Hin. rewrite Hperm in Hin.
    by apply (proj1 (Forall_forall _ _) Hshapes). }
  assert (Forall (in_range raw') raw') as Hrange'.
  { apply Forall_forall. intros kv Hin. rewrite Hperm in Hin.
    destruct (proj1 (Forall_forall _ _) Hrange kv Hin) as (w & Hw & Hb).
    exists w. split; [|done]. by rewrite (register_width_Permutation raw raw'). }
  assert (Forall (λ kv, fits_int64 kv.2 = true) raw') as Hfits'.
  { apply Forall_forall. intros kv Hin. rewrite Hperm in Hin.
    by apply (proj1 (Forall_forall _ _) (process_entries_fits _ _ _ _ _ Hloop)). }
  destruct (process_entries_accepts from_string shots raw' [] ∅
              (grids_of_empty _ _) Hshapes' Hfits' Hrange') as [ms' Hloop'].
  assert (∃ out', _format_iqm_result from_string metadata_shots raw' = Return out')
    as [out' Hout'].
  { eexists. unfold _format_iqm_result. rewrite Hshots'. simpl. by rewrite Hloop'. }
  rewrite Hout'. f_equal.
  destruct (format_iqm_result_refines _ _ _ _ Hout')
    as (shots' & ms'' & regs' & Hshots'' & _ & _ & _ & _ & Hsorted' & Hregs' & ->).
  rewrite Hshots' in Hshots''. injection Hshots'' as <-.
  assert (regs' = regs) as ->.
  { apply strictly_descending_unique; [done..|].
    intros c. by rewrite Hregs, Hregs', (register_width_Permutation raw raw'). }
  apply Forall_fmap_ext, Forall_forall. intros s _.
  unfold spec_shot_string. f_equal.
  apply Forall_fmap_ext, Forall_forall. intros c _.
  unfold spec_register_string. rewrite (register_width_Permutation raw raw') by done.
  f_equal. apply Forall_fmap_ext, Forall_forall. intros b _.
  unfold spec_bit. by rewrite (written_column_Permutation raw raw').
Qed.
End ReassemblyMore.

Section IndexErrors.
Variable from_string : string → MeasurementKey.


End IndexErrors.

(** * Further properties of the job *)

(** *** The histogram adds up *)

Lemma total_counts_insert (counts : gmap string nat) x n :
  counts !! x = None → total_counts (<[x := n]> counts) = (n + total_counts counts)%nat.
Proof.
  intros Hx. unfold total_counts.
  rewrite map_fold_insert_L; [done| |done]. intros. lia.
Qed.

Lemma total_counts_increment (counts : gmap string nat) x :
  total_counts (<[x := S (default 0%nat (counts !! x))]> counts) = S (total_counts counts).
Proof.
  destruct (counts !! x) as [c|] eqn:Hx; simpl.
  - rewrite <- (insert_delete_id counts x c Hx) at 2.
    rewrite <- insert_delete_eq.
    rewrite !total_counts_insert by apply lookup_delete_eq. done.
  - by rewrite total_counts_insert.
Qed.

(** The counts of a histogram add up to the number of shots. *)
Lemma Counter_total (memory : list string) :
  total_counts (Counter memory) = length memory.
Proof.
  unfold Counter.
  assert (∀ counts : gmap string nat,
    total_counts (foldl (λ counts x, <[x := S (default 0%nat (counts !! x))]> counts)
                        counts memory)
    = (total_counts counts + length memory)%nat) as Hgen.
  { induction memory as [|x memory IH]; intros counts; simpl; [lia|].
    rewrite IH, total_counts_increment. lia. }
  rewrite Hgen. unfold total_counts. by rewrite map_fold_empty.
Qed.

Section JobMore.
Context {World UUID : Type}.
Variable from_string : string → MeasurementKey.
Variable uuid_UUID : string → option UUID.
Variable wait_for_results : UUID → World → Outcome RunResult.t * World.
Variable get_run : UUID → World → Outcome RunResult.t * World.
Variable today : World → date * World.

Import IQMJob.
Local Abbreviation State := (@IQMJob.State World UUID).
Local Abbreviation status := (IQMJob.status from_string uuid_UUID get_run).
Local Abbreviation result := (IQMJob.result from_string uuid_UUID wait_for_results today).
Local Abbreviation step := (step from_string uuid_UUID wait_for_results get_run today).
Local Abbreviation run := (run from_string uuid_UUID wait_for_results get_run today).
Local Abbreviation status_cached := (status_cached from_string uuid_UUID get_run).
Local Abbreviation status_uncached := (status_uncached from_string uuid_UUID get_run).
Local Abbreviation result_cached :=
  (result_cached from_string uuid_UUID wait_for_results today).
Local Abbreviation result_uncached :=
  (result_uncached from_string uuid_UUID wait_for_results today).

(** X8. The object returned by [result] carries one entry, whose shot count
    is the length of its memory and the sum of its counts. *)
Theorem result_counts_total (st st' : State) r :
  result st = (Return r, st') →
  ∃ entry,
    Result.results r = [entry] ∧
    Result.shots entry = length (Result.memory entry) ∧
    total_counts (Result.counts entry) = Result.shots entry ∧
    (0 < Result.shots entry)%nat.
Proof.
  intros Hres.
  destruct (result_Return from_string uuid_UUID wait_for_results today _ _ _ Hres)
    as (memory & Hm & Hne & Hid & Hr).
  rewrite Hr. eexists. split; [done|]. simpl.
  split_and!; [done|apply Counter_total|]. destruct memory; [done|simpl; lia].
Qed.

(** X9. A call of [result] that starts without cached result and returns
    reports the shot count recorded in the metadata, when one is. *)
Theorem result_reports_recorded_shots (st st' : State) r recorded :
  result st = (Return r, st') →
  truthy (_result (job st)) = false →
  metadata_shots (job st) = Some recorded →
  ∃ entry, Result.results r = [entry] ∧ Z.of_nat (Result.shots entry) = recorded.
Proof.
  intros Hres Hunc Hmeta. rewrite result_uncached in Hres by done.
  destruct (uuid_UUID _) as [u|]; [|done]. simpl in Hres.
  destruct (wait_for_results u (world st)).1 as [rr|]; [|done].
  destruct (_format_iqm_result _ _ _) as [out|] eqn:Hout; [|done].
  injection Hres as <- _. eexists. split; [done|]. simpl.
  rewrite Hmeta in Hout.
  destruct (format_iqm_result_refines _ _ _ _ Hout)
    as (shots & ms & regs & Hshots & _ & _ & Hpos & _ & _ & _ & ->).
  apply get_shots_Return in Hshots as (kv & raw' & d & _ & _ & ->).
  simpl in *. rewrite length_fmap, length_seq. apply Z2Nat.id. lia.
Qed.

(** X10. A method that raises leaves the attributes of the job as they were:
    nothing is cached on a failure. *)
Theorem raise_keeps_job (st : State) :
  (∀ e st', result st = (Raise e, st') → job st' = job st) ∧
  (∀ e st', status st = (Raise e, st') → job st' = job st).
Proof.
  split; intros e st'.
  - destruct (truthy (_result (job st))) eqn:Hc.
    { by destruct (result_cached st Hc) as (r & _ & ->). }
    rewrite result_uncached by done.
    destruct (uuid_UUID _) as [u|]; [|by intros [= _ <-]]. simpl.
    destruct (wait_for_results u (world st)).1 as [rr|]; [|by intros [= _ <-]].
    destruct (_format_iqm_result _ _ _); [done|]. by intros [= _ <-].
  - destruct (truthy (_result (job st))) eqn:Hc.
    { by rewrite status_cached. }
    rewrite status_uncached by done.
    destruct (uuid_UUID _) as [u|]; [|by intros [= _ <-]]. simpl.
    destruct (get_run u (world st)).1 as [rr|]; [|by intros [= _ <-]].
    destruct (decide _); [|done].
    destruct (_format_iqm_result _ _ _); [done|]. by intros [= _ <-].
Qed.

(** X11. What [status] answers.  With a result cached it answers [DONE]
    at once.  Without one, when the identifier parses and [get_run]
    returns a run: a run in any status but [READY], a failed run
    included, is answered by [RUNNING] after that one call, with no
    reassembly and the job as it was, whatever the run holds; a ready
    run whose reassembly returns is answered by [DONE] with the
    reassembled list cached; a ready run whose reassembly raises makes
    [status] raise the same exception.  Hence [status] answers [DONE] or
    [RUNNING] and nothing else: with [DONE] the result is cached
    afterwards; with [RUNNING] nothing was cached before, the job is
    left as it was and the run was not ready. *)
Theorem status_DONE_or_RUNNING (st : State) :
  (truthy (_result (job st)) = true → status st = (Return DONE, st)) ∧
  (∀ u iqm_result w,
     truthy (_result (job st)) = false →
     uuid_UUID (_job_id (job st)) = Some u →
     get_run u (world st) = (Return iqm_result, w) →
     (RunResult.status iqm_result ≠ READY →
      status st
      = (Return RUNNING,
         {| job := job st; world := w; trace := trace st ++ [Call_get_run u] |})) ∧
     (RunResult.status iqm_result = FAILED →
      status st
      = (Return RUNNING,
         {| job := job st; world := w; trace := trace st ++ [Call_get_run u] |})) ∧
     (RunResult.status iqm_result = READY →
      ∀ r, _format_iqm_result from_string (metadata_shots (job st))
             (RunResult.measurements iqm_result) = Return r →
           status st
           = (Return DONE,
              {| job := with_result (job st) r; world := w;
                 trace := trace st ++ [Call_get_run u; Call_format_iqm_result] |})) ∧
     (RunResult.status iqm_result = READY →
      ∀ e, _format_iqm_result from_string (metadata_shots (job st))
             (RunResult.measurements iqm_result) = Raise e →
           status st
           = (Raise e,
              {| job := job st; world := w;
                 trace := trace st ++ [Call_get_run u; Call_format_iqm_result] |}))) ∧
  (∀ js st',
     status st = (Return js, st') →
     (js = DONE ∧ truthy (_result (job st')) = true) ∨
     (js = RUNNING ∧ truthy (_result (job st)) = false ∧ job st' = job st ∧
      ∃ u iqm_result,
        uuid_UUID (_job_id (job st)) = Some u ∧
        (get_run u (world st)).1 = Return iqm_result ∧
        RunResult.status iqm_result ≠ READY)).
Proof.
  split_and!.
  - apply status_cached.
  - intros u rr w Hc Hu Hrun.
    assert (RunResult.status rr ≠ READY →
            status st
            = (Return RUNNING,
               {| job := job st; world := w; trace := trace st ++ [Call_get_run u] |}))
      as Hrunning.
    { intros Hne. rewrite status_uncached, Hu, Hrun by done. simpl.
      by destruct (decide _). }
    split_and!.
    + done.
    + intros Hf. apply Hrunning. by rewrite Hf.
    + intros Hready r Hfmt. rewrite status_uncached, Hu, Hrun by done. simpl.
      destruct (decide _); [|done]. rewrite Hfmt. by rewrite <- app_assoc.
    + intros Hready e Hfmt. rewrite status_uncached, Hu, Hrun by done. simpl.
      destruct (decide _); [|done]. rewrite Hfmt. by rewrite <- app_assoc.
  - intros js st' Hst. destruct js; try (left; split; [done|]);
      try by eapply (status_DONE_cached from_string uuid_UUID get_run).
    all: destruct (truthy (_result (job st))) eqn:Hc;
      [by rewrite status_cached in Hst|].
    all: rewrite status_uncached in Hst by done.
    all: destruct (uuid_UUID _) as [u|]; [|done]; simpl in Hst.
    all: destruct (get_run u (world st)).1 as [rr|] eqn:Hrr; [|done].
    all: destruct (decide _) as [|Hne]; [by destruct (_format_iqm_result _ _ _)|].
    all: try done.
    right. injection Hst as <-. split_and!; [done..|]. by exists u, rr.
Qed.

Lemma run_keeps_cached_job ops (st : State) :
  truthy (_result (job st)) = true → job (run ops st) = job st.
Proof.
  revert st. induction ops as [|op ops IH]; intros st Hc; simpl; [done|].
  assert (job (step st op) = job st) as Hstep.
  { destruct op; simpl; try done.
    - by rewrite status_cached.
    - by destruct (result_cached st Hc) as (r & _ & ->). }
  rewrite IH; [done|]. by rewrite Hstep.
Qed.

(** X12. The cache is written once: as soon as a result is cached, no
    sequence of calls changes the attributes of the job. *)
Theorem cached_job_never_changes ops (st : State) :
  truthy (_result (job st)) = true → job (run ops st) = job st.
Proof. apply run_keeps_cached_job. Qed.

(** X13. No call ever changes the id or the metadata of a job. *)
Theorem job_id_and_metadata_never_change ops (st : State) :
  _job_id (job (run ops st)) = _job_id (job st) ∧
  metadata_shots (job (run ops st)) = metadata_shots (job st).
Proof.
  revert st. induction ops as [|op ops IH]; intros st; simpl; [done|].
  assert (_job_id (job (step st op)) = _job_id (job st) ∧
          metadata_shots (job (step st op)) = metadata_shots (job st)) as [Hid Hm].
  { destruct op; simpl; try done.
    - destruct (truthy (_result (job st))) eqn:Hc; [by rewrite status_cached|].
      rewrite status_uncached by done.
      destruct (uuid_UUID _) as [u|]; [|done]. simpl.
      destruct (get_run u (world st)).1 as [rr|]; [|done].
      destruct (decide _); [|done]. by destruct (_format_iqm_result _ _ _).
    - destruct (truthy (_result (job st))) eqn:Hc.
      { by destruct (result_cached st Hc) as (r & _ & ->). }
      rewrite result_uncached by done.
      destruct (uuid_UUID _) as [u|]; [|done]. simpl.
      destruct (wait_for_results u (world st)).1 as [rr|]; [|done].
      by destruct (_format_iqm_result _ _ _). }
  destruct (IH (step st op)) as [-> ->]. done.
Qed.

(** X14. After [result] has returned, [status] answers [DONE] without a call
    of the client, whatever was called in between. *)
Theorem result_then_status (st st1 : State) r ops :
  result st = (Return r, st1) →
  status (run ops st1) = (Return DONE, run ops st1).
Proof.
  intros Hres.
  destruct (result_Return from_string uuid_UUID wait_for_results today _ _ _ Hres)
    as (memory & Hr & Hne & _).
  apply status_cached.
  rewrite run_keeps_cached_job; rewrite Hr; by apply truthy_nonempty.
Qed.

(** X15. After [status] has answered [DONE], [result] returns the list that
    [status] cached, without a call of [wait_for_results] and without a
    reassembly: it only reads the clock. *)
Theorem status_then_result (st st1 : State) ops :
  status st = (Return DONE, st1) →
  ∃ memory,
    _result (job st1) = Some memory ∧
    result (run ops st1)
    = (Return (result_of (job st1) memory (today (world (run ops st1))).1),
       {| job := job st1; world := (today (world (run ops st1))).2;
          trace := trace (run ops st1) ++ [Call_today] |}).
Proof.
  intros Hc%status_DONE_cached.
  pose proof (run_keeps_cached_job ops st1 Hc) as Hjob.
  destruct (result_cached (run ops st1)) as (memory & Hm & ->); [by rewrite Hjob|].
  rewrite Hjob in Hm. exists memory. split; [done|]. by rewrite Hjob.
Qed.
(** X16. A call of [status] never calls [wait_for_results] and polls at
    most once; a call of [result] never calls [get_run] and waits at most
    once. *)
Theorem client_calls_per_method (st : State) :
  (count_events is_wait_for_results (trace (status st).2)
   = count_events is_wait_for_results (trace st) ∧
   count_events is_get_run (trace (status st).2)
   ≤ count_events is_get_run (trace st) + 1)%nat ∧
  (count_events is_get_run (trace (result st).2)
   = count_events is_get_run (trace st) ∧
   count_events is_wait_for_results (trace (result st).2)
   ≤ count_events is_wait_for_results (trace st) + 1)%nat.
Proof.
  split.
  - destruct (truthy (_result (job st))) eqn:Hc.
    { rewrite status_cached by done. simpl. lia. }
    rewrite status_uncached by done.
    destruct (uuid_UUID _) as [u|]; [|simpl; lia]. simpl.
    destruct (get_run u (world st)).1 as [rr|]; simpl;
      [|rewrite !count_events_app; simpl; lia].
    destruct (decide _); simpl; [|rewrite !count_events_app; simpl; lia].
    destruct (_format_iqm_result _ _ _); simpl; rewrite !count_events_app; simpl; lia.
  - destruct (truthy (_result (job st))) eqn:Hc.
    { destruct (result_cached st Hc) as (r & _ & ->). simpl.
      rewrite !count_events_app. simpl. lia. }
    rewrite result_uncached by done.
    destruct (uuid_UUID _) as [u|]; [|simpl; lia]. simpl.
    destruct (wait_for_results u (world st)).1 as [rr|]; simpl;
      [|rewrite !count_events_app; simpl; lia].
    destruct (_format_iqm_result _ _ _); simpl; rewrite !count_events_app; simpl; lia.
Qed.
End JobMore.

(** *** The further properties on the concrete data *)

Lemma demo_raw_bits : bits_only demo_raw.
Proof.
  unfold bits_only, demo_raw, column. simpl.
  repeat first [apply Forall_nil_2 | apply Forall_cons_2 | by left | by right].
Qed.




Lemma format_iqm_result_length_witness :
  demo_memory ≠ [] ∧
  (∀ recorded, Some 2 = Some recorded → Z.of_nat (length demo_memory) = recorded) ∧
  Forall (λ kv, ∃ zs, kv.2 = column zs ∧ length zs = length demo_memory) demo_raw.
Proof.
  apply (format_iqm_result_length (key_table demo_keys) (Some 2) demo_raw demo_memory).
  vm_compute. reflexivity.
Defined.

Lemma format_iqm_result_nonpositive_shots_witness :
  0 ≤ 0 ∧ _format_iqm_result (key_table demo_keys) (Some 0) demo_raw ≠ Return demo_memory.
Proof.
  split; [lia|].
  apply (format_iqm_result_nonpositive_shots (key_table demo_keys) 0 demo_raw). lia.
Defined.

Lemma process_entries_last_write_witness :
  ∃ creg,
    alias_grids !! creg_idx (key_table alias_keys "x_2_0_0") = Some creg ∧
    length (rows creg) = length (column0 (column [1; 1])) ∧
    ∀ s z, column0 (column [1; 1]) !! s = Some z →
           rows creg !! s ≫= (.!! clbit_idx (key_table alias_keys "x_2_0_0")) = Some z.
Proof.
  apply (process_entries_last_write (key_table alias_keys) 2 alias_raw alias_grids
           [("c_2_0_0", column [0; 1])]%string "x_2_0_0"%string (column [1; 1]) []).
  - vm_compute. reflexivity.
  - reflexivity.
  - intros kv' Hin. by apply elem_of_nil in Hin.
Defined.

Lemma format_iqm_result_string_length_witness :
  ∃ regs,
    StronglySorted gt regs ∧
    (∀ c, c ∈ regs ↔ is_Some (register_width (key_table demo_keys) demo_raw c)) ∧
    Forall (λ str, String.length str
                   = (sum_list ((λ c, default 0%nat
                                        (register_width (key_table demo_keys) demo_raw c))
                                  <$> regs)
                      + (length regs - 1))%nat) demo_memory.
Proof.
  apply (format_iqm_result_string_length (key_table demo_keys) None demo_raw demo_memory).
  - vm_compute. reflexivity.
  - exact demo_raw_bits.
Defined.

Lemma demo_raw_distinct_targets : distinct_targets (key_table demo_keys) demo_raw.
Proof. unfold distinct_targets. refine (bool_decide_unpack _ _). by vm_compute. Qed.

Lemma demo_raw_consistent_widths : consistent_widths (key_table demo_keys) demo_raw.
Proof. unfold consistent_widths. refine (bool_decide_unpack _ _). by vm_compute. Qed.

Lemma format_iqm_result_order_independent_witness :
  _format_iqm_result (key_table demo_keys) None (reverse demo_raw) = Return demo_memory.
Proof.
  apply (format_iqm_result_order_independent (key_table demo_keys) None demo_raw).
  - vm_compute. reflexivity.
  - apply reverse_Permutation.
  - exact demo_raw_distinct_targets.
  - exact demo_raw_consistent_widths.
Defined.

Lemma result_counts_total_witness :
  ∃ entry,
    Result.results (result_of (demo_job None) demo_memory (demo_date 1)) = [entry] ∧
    Result.shots entry = length (Result.memory entry) ∧
    total_counts (Result.counts entry) = Result.shots entry ∧
    (0 < Result.shots entry)%nat.
Proof.
  exact (result_counts_total (key_table demo_keys) demo_uuid demo_client demo_today
           (demo_state None 0) demo_after_result _ demo_result_first).
Defined.

Lemma result_reports_recorded_shots_witness :
  ∃ entry,
    Result.results (result_of (demo_job None) demo_memory (demo_date 1)) = [entry] ∧
    Z.of_nat (Result.shots entry) = 2.
Proof.
  exact (result_reports_recorded_shots (key_table demo_keys) demo_uuid demo_client
           demo_today (demo_state None 0) demo_after_result _ 2
           demo_result_first eq_refl eq_refl).
Defined.

Lemma short_status_raises :
  IQMJob.status (key_table demo_keys) demo_uuid short_client (demo_state None 0)
  = (Raise (ShapeError (mk 0 2 1) [1; 1]%nat (2, 1)), demo_failed).
Proof. vm_compute. reflexivity. Defined.

Lemma raise_keeps_job_witness :
  IQMJob.job demo_failed = IQMJob.job (demo_state None 0).
Proof.
  exact (proj2 (raise_keeps_job (key_table demo_keys) demo_uuid short_client short_client
                  demo_today (demo_state None 0)) _ _ short_status_raises).
Defined.

Lemma status_DONE_or_RUNNING_witness :
  RunResult.status {| RunResult.status := FAILED; RunResult.measurements := demo_raw |}
  = FAILED ∧
  IQMJob.status (key_table demo_keys) demo_uuid failed_client (demo_state None 0)
  = (Return RUNNING, demo_polled).
Proof.
  split; [reflexivity|].
  exact (proj1 (proj2 (proj1 (proj2
           (status_DONE_or_RUNNING (key_table demo_keys) demo_uuid failed_client
              (demo_state None 0)))
           "c2d31ae9-e749-4835-8450-0df10be5d1c1"%string
           {| RunResult.status := FAILED; RunResult.measurements := demo_raw |}
           0%nat eq_refl eq_refl eq_refl)) eq_refl).
Defined.

Lemma cached_job_never_changes_witness :
  IQMJob.job (run (key_table demo_keys) demo_uuid demo_client demo_client demo_today
                [Op_status; Op_result; Op_outside S; Op_submit; Op_result]
                demo_after_result)
  = IQMJob.job demo_after_result.
Proof.
  exact (cached_job_never_changes (key_table demo_keys) demo_uuid demo_client demo_client
           demo_today _ demo_after_result eq_refl).
Defined.

Lemma result_then_status_witness :
  let st := run (key_table demo_keys) demo_uuid demo_client pending_client demo_today
              [Op_outside S; Op_result] demo_after_result in
  IQMJob.status (key_table demo_keys) demo_uuid pending_client st = (Return DONE, st).
Proof.
  exact (result_then_status (key_table demo_keys) demo_uuid demo_client pending_client
           demo_today (demo_state None 0) demo_after_result _ _ demo_result_first).
Defined.

Lemma status_then_result_witness :
  ∃ memory,
    IQMJob._result (IQMJob.job demo_after_status) = Some memory ∧
    let st := run (key_table demo_keys) demo_uuid short_client demo_client demo_today
                [Op_outside S; Op_status] demo_after_status in
    IQMJob.result (key_table demo_keys) demo_uuid short_client demo_today st
    = (Return (result_of (IQMJob.job demo_after_status) memory
                 (demo_today (IQMJob.world st)).1),
       {| IQMJob.job := IQMJob.job demo_after_status;
          IQMJob.world := (demo_today (IQMJob.world st)).2;
          IQMJob.trace := IQMJob.trace st ++ [IQMJob.Call_today] |}).
Proof.
  exact (status_then_result (key_table demo_keys) demo_uuid short_client demo_client
           demo_today (demo_state None 0) demo_after_status _ demo_status_first).
Defined.

